(** * A shallow embedding of [scripts/cdp.js], the minimal CDP client

    The file follows the source top-down: JavaScript values and the string
    helpers first, then [redactSecrets], the [connect] function over an
    explicit world of platform services, and finally the [CDP] class as a
    state machine over its fields ([id], [callbacks], [eventHandlers]) plus
    the platform objects its closures capture (promises and timers). *)

From Stdlib Require Import ZArith Ascii String List Bool Lia.
From stdpp Require Import base option list gmap strings pretty.

Set Warnings "-register-all".
Local Open Scope Z_scope.
Local Open Scope string_scope.

(** ** JavaScript strings

    A JavaScript string is a sequence of UTF-16 code units.  A [string] here
    is a sequence of code units below 256 (one [ascii] each), which covers
    every literal of the source and every character class it uses. *)

Module JsString.

Definition code (c : ascii) : N := N_of_ascii c.

(** The class [\s] (WhiteSpace and LineTerminator) restricted to code units
    below 256: TAB, LF, VT, FF, CR, SPACE and NBSP. *)
Definition is_space (c : ascii) : bool :=
  let n := code c in
  ((9 <=? n) && (n <=? 13) || (n =? 32) || (n =? 160))%N.

(** Case folding of the [i] flag; only ASCII letters fold onto an ASCII
    pattern character. *)
Definition lower (c : ascii) : ascii :=
  let n := code c in
  if ((65 <=? n) && (n <=? 90))%N then ascii_of_N (n + 32) else c.

Definition ci_eqb (a b : ascii) : bool := Ascii.eqb (lower a) (lower b).

(** [startsWith]. *)
Fixpoint startsWith (s p : string) : bool :=
  match p, s with
  | EmptyString, _ => true
  | String a p', String b s' => Ascii.eqb a b && startsWith s' p'
  | String _ _, EmptyString => false
  end.

(** Matching a literal under the [i] flag at the head of [s]: the text
    that matched (in the case it has in [s]) and what follows it. *)
Fixpoint prefix_ci (p s : string) : option (string * string) :=
  match p, s with
  | EmptyString, _ => Some (EmptyString, s)
  | String a p', String b s' =>
      if ci_eqb a b then
        match prefix_ci p' s' with
        | Some (g, r) => Some (String b g, r)
        | None => None
        end
      else None
  | String _ _, EmptyString => None
  end.

(** The longest prefix of [s] whose characters satisfy [f] (a greedy
    [[...]*]), and the rest. *)
Fixpoint span (f : ascii -> bool) (s : string) : string * string :=
  match s with
  | EmptyString => (EmptyString, EmptyString)
  | String c s' =>
      if f c then let '(a, b) := span f s' in (String c a, b)
      else (EmptyString, s)
  end.

Fixpoint rev_acc (s acc : string) : string :=
  match s with
  | EmptyString => acc
  | String c s' => rev_acc s' (String c acc)
  end.

Definition rev (s : string) : string := rev_acc s EmptyString.

Definition trimStart (s : string) : string := snd (span is_space s).

(** [String.prototype.trim]. *)
Definition trim (s : string) : string := rev (trimStart (rev (trimStart s))).

(** [s.replace(/\/$/, "")]: one trailing slash removed. *)
Definition strip_trailing_slash (s : string) : string :=
  match rev s with
  | String "/" r => rev r
  | _ => s
  end.

Definition nonempty (s : string) : bool :=
  match s with EmptyString => false | _ => true end.

(** [text.replace(re, tpl)] for a global regular expression that never
    matches the empty string.  [m s] tries the expression at the head of
    [s] and gives the first capture group and the length of the match;
    the scan resumes right after a match. *)
Section Replace.
Variable m : string -> option (string * nat).
Variable tpl : string -> string.

Fixpoint replace_go (skip : nat) (s : string) : string :=
  match s with
  | EmptyString => EmptyString
  | String c s' =>
      match skip with
      | S k => replace_go k s'
      | O =>
          match m s with
          | Some (g, len) => tpl g +:+ replace_go (Nat.pred len) s'
          | None => String c (replace_go O s')
          end
      end
  end.

Definition replace_all (s : string) : string := replace_go O s.
End Replace.

End JsString.

Import JsString.

(** ** [redactSecrets] *)

(** [[^&\s]]. *)
Definition value_char (c : ascii) : bool :=
  negb (Ascii.eqb c "&") && negb (is_space c).

Definition not_space (c : ascii) : bool := negb (is_space c).

(** [/(token=)[^&\s]+/gi] at the head of [s]. *)
Definition match_token (s : string) : option (string * nat) :=
  match prefix_ci "token=" s with
  | Some (g, r) =>
      match span value_char r with
      | (EmptyString, _) => None
      | (v, _) => Some (g, (String.length g + String.length v)%nat)
      end
  | None => None
  end.

(** [/(access[_-]?token=)[^&\s]+/gi] at the head of [s]. *)
Definition match_access_token (s : string) : option (string * nat) :=
  match prefix_ci "access" s with
  | Some (a, r) =>
      let '(sep, r1) :=
        match r with
        | String c r' =>
            if Ascii.eqb c "_" || Ascii.eqb c "-"
            then (String c EmptyString, r') else (EmptyString, r)
        | EmptyString => (EmptyString, r)
        end in
      match prefix_ci "token=" r1 with
      | Some (t, r2) =>
          match span value_char r2 with
          | (EmptyString, _) => None
          | (v, _) =>
              let g := a +:+ sep +:+ t in
              Some (g, (String.length g + String.length v)%nat)
          end
      | None => None
      end
  | None => None
  end.

(** [/(authorization:)\s*\S+/gi] at the head of [s]. *)
Definition match_authorization (s : string) : option (string * nat) :=
  match prefix_ci "authorization:" s with
  | Some (g, r) =>
      let '(ws, r1) := span is_space r in
      match span not_space r1 with
      | (EmptyString, _) => None
      | (v, _) =>
          Some (g, (String.length g + String.length ws + String.length v)%nat)
      end
  | None => None
  end.

Definition redactSecrets (text : string) : string :=
  if nonempty text then
    replace_all match_authorization (fun g => g +:+ " ***")
      (replace_all match_access_token (fun g => g +:+ "***")
         (replace_all match_token (fun g => g +:+ "***") text))
  else "".

(** ** JavaScript values

    The values that [JSON.parse] and [resp.json()] produce, plus
    [undefined].  Numbers are the integers, which the protocol's ids are;
    [JNum n] is the number [n], for an [n] that a number holds exactly
    (every integer up to 2^53, and above it the integers with 53
    significant bits). *)

Inductive JsValue : Type :=
| JUndefined
| JNull
| JBool (b : bool)
| JNum (n : Z)
| JStr (s : string)
| JArr (xs : list JsValue)
| JObj (fields : list (string * JsValue)).

(** A value in a boolean position. *)
Definition truthy (v : JsValue) : bool :=
  match v with
  | JUndefined | JNull => false
  | JBool b => b
  | JNum n => negb (Z.eqb n 0)
  | JStr s => nonempty s
  | JArr _ | JObj _ => true
  end.

Definition nullish (v : JsValue) : bool :=
  match v with JUndefined | JNull => true | _ => false end.

Fixpoint assoc (k : string) (fields : list (string * JsValue)) : JsValue :=
  match fields with
  | [] => JUndefined
  | (k', v) :: rest => if String.eqb k k' then v else assoc k rest
  end.

(** [v.k] on a value that is neither [null] nor [undefined].  None of the
    property names the source reads is defined on a primitive or an array,
    so only objects answer. *)
Definition get (v : JsValue) (k : string) : JsValue :=
  match v with
  | JObj fields => assoc k fields
  | _ => JUndefined
  end.

(** [v?.k]. *)
Definition get_opt (v : JsValue) (k : string) : JsValue :=
  if nullish v then JUndefined else get v k.

(** [a || b]. *)
Definition js_or (a b : JsValue) : JsValue := if truthy a then a else b.

(** *** [String(v)]

    The number nearest to the integer [m > 0]: 53 significant bits, a tie
    going to the even one. *)
Definition round_to_number (m : Z) : Z :=
  let bits := Z.log2 m + 1 in
  if Z.leb bits 53 then m else
  let shift := bits - 53 in
  let q := Z.shiftr m shift in
  let r := m - Z.shiftl q shift in
  let half := Z.shiftl 1 (shift - 1) in
  let q' := if Z.ltb half r || (Z.eqb r half && Z.odd q) then q + 1 else q in
  Z.shiftl q' shift.

(** The integer of fewest significant digits, [k] of them or more, that
    the number [v] of [digits] digits is the nearest number to; of two with
    as many digits, the one closer to [v]. *)
Fixpoint shortest_digits (fuel : nat) (k digits v : Z) : Z :=
  match fuel with
  | O => v
  | S fuel' =>
      let scale := 10 ^ (digits - k) in
      let lo := v / scale * scale in
      let hi := lo + scale in
      let lo_ok := Z.eqb (round_to_number lo) v in
      let hi_ok := Z.eqb (round_to_number hi) v in
      if lo_ok && hi_ok then
        if Z.ltb (v - lo) (hi - v) then lo
        else if Z.ltb (hi - v) (v - lo) then hi
        else if Z.even (lo / scale) then lo else hi
      else if lo_ok then lo
      else if hi_ok then hi
      else shortest_digits fuel' (k + 1) digits v
  end.

Fixpoint drop_zeros (rev_digits : string) : string :=
  match rev_digits with
  | String "0" r => drop_zeros r
  | _ => rev_digits
  end.

(** [String(m)] for [m > 0]: the shortest digits that read back as the
    same number, written out with their zeros up to 21 digits and with an
    exponent from there on. *)
Definition positive_to_string (m : Z) : string :=
  let v := round_to_number m in
  let printed :=
    pretty (shortest_digits 17 1 (Z.of_nat (String.length (pretty v))) v) in
  let n := Z.of_nat (String.length printed) in
  if Z.leb n 21 then printed else
  match rev_acc (drop_zeros (rev_acc printed "")) "" with
  | String d EmptyString => String d ("e+" +:+ pretty (n - 1))
  | String d more => String d ("." +:+ more +:+ "e+" +:+ pretty (n - 1))
  | EmptyString => printed
  end.

Definition number_to_string (n : Z) : string :=
  if Z.eqb n 0 then "0"
  else if Z.ltb n 0 then "-" +:+ positive_to_string (- n)
  else positive_to_string n.

(** The object has a property of its own under the key. *)
Definition has_own (k : string) (fields : list (string * JsValue)) : bool :=
  existsb (fun kv => String.eqb (fst kv) k) fields.

(** [String(v)]: the string, or [None] when the conversion throws its
    [TypeError].  An object is converted by its [toString]: the one of
    [Object.prototype] answers [[object Object]], and a property of the
    object's own under that key hides it; that property is no function
    (the value came from JSON), [valueOf] gives no primitive either, and
    the conversion throws.  An array joins the strings of its elements,
    with nothing for [null] and [undefined]. *)
Fixpoint to_string (v : JsValue) : option string :=
  match v with
  | JUndefined => Some "undefined"
  | JNull => Some "null"
  | JBool true => Some "true"
  | JBool false => Some "false"
  | JNum n => Some (number_to_string n)
  | JStr s => Some s
  | JArr xs =>
      (fix join (l : list JsValue) : option string :=
         match l with
         | [] => Some ""
         | x :: l' =>
             match (if nullish x then Some "" else to_string x), join l' with
             | Some s, Some r =>
                 Some (s +:+ match l' with [] => "" | _ => "," +:+ r end)
             | _, _ => None
             end
         end) xs
  | JObj fields =>
      if has_own "toString" fields then None else Some "[object Object]"
  end.

(** How a piece of code completes: normally with a value, or by throwing. *)
Inductive Completion (E A : Type) : Type :=
| Normal (a : A)
| Throw (e : E).
Arguments Normal {E A} a.
Arguments Throw {E A} e.

(** ** [connect] and its helpers

    [connect] is asynchronous code over platform services: the process
    environment, [URL], [dns.lookup], the [WebSocket] constructor and
    [fetch].  What those answer is a [World]; a run of [connect] is the
    list of network operations it starts, in order, and how it completes. *)

Module Connect.

(** A thrown object, as far as the source looks at it: [e.name] and
    [e.message]. *)
Record Exn : Type := { exn_name : string; exn_message : string }.

(** [new Error(message)]. *)
Definition Error (message : string) : Exn :=
  {| exn_name := "Error"; exn_message := message |}.

(** The fields of a parsed [URL] ([protocol] keeps its colon, [search]
    its question mark and [hash] its number sign). *)
Record URL : Type := {
  protocol : string;
  username : string;
  password : string;
  hostname : string;
  port : string;
  pathname : string;
  search : string;
  hash : string
}.

(** [u.host]. *)
Definition host (u : URL) : string :=
  if nonempty (port u) then hostname u +:+ ":" +:+ port u else hostname u.

(** [u.toString()]. *)
Definition href (u : URL) : string :=
  protocol u +:+ "//" +:+
  (if nonempty (username u) || nonempty (password u)
   then username u +:+
        (if nonempty (password u) then ":" +:+ password u else "") +:+ "@"
   else "") +:+
  host u +:+ pathname u +:+ search u +:+ hash u.

Inductive DnsResult : Type :=
| DnsResolves
| DnsFails (code : string).

(** What becomes of a socket under construction: it opens, it reports an
    error, the connect timer fires first, or the constructor throws. *)
Inductive WsResult : Type :=
| WsOpens
| WsErrors
| WsTimesOut
| WsThrows (e : Exn).

(** What [fetch(url)] does: it rejects (a network failure, or an
    [AbortError] when the signal fires), or it answers with [ok], [status]
    and what [resp.json()] gives. *)
Inductive FetchResult : Type :=
| FetchRejects (e : Exn)
| FetchResponds (ok : bool) (status : Z) (json : Completion Exn JsValue).

(** The platform as [connect] finds it.  Each service answers a request
    by its argument. *)
Record World : Type := {
  env_LIGHTPANDA_CDP_URL : option string;
  env_CDP_WS_URL : option string;
  new_URL : string -> Completion Exn URL;
  dns_lookup : string -> DnsResult;
  websocket_available : bool;
  new_WebSocket : string -> WsResult;
  fetch : string -> FetchResult;
  (** the [TypeError] of destructuring [null] *)
  destructure_error : Exn;
  (** the [TypeError] of converting to a string an object that has no
      string form *)
  conversion_error : Exn
}.

Inductive IoEvent : Type :=
| IoDns (hostname : string)
| IoWebSocket (url : string) (timeout : Z)
| IoFetch (url : string) (timeout : Z).

(** The client that [new CDP(ws)] builds on the socket opened to [url]. *)
Inductive Client : Type := Connected (url : string).

Definition IO (A : Type) : Type := list IoEvent * Completion Exn A.

Definition ret {A} (a : A) : IO A := ([], Normal a).
Definition throw {A} (e : Exn) : IO A := ([], Throw e).
Definition io {A} (ev : IoEvent) (r : Completion Exn A) : IO A := ([ev], r).

Definition bind {A B} (m : IO A) (f : A -> IO B) : IO B :=
  match m with
  | (t, Normal a) => let '(t', r) := f a in ((t ++ t')%list, r)
  | (t, Throw e) => (t, Throw e)
  end.

Definition try_catch {A} (m : IO A) (h : Exn -> IO A) : IO A :=
  match m with
  | (t, Throw e) => let '(t', r) := h e in ((t ++ t')%list, r)
  | (t, Normal a) => (t, Normal a)
  end.

Definition lift {A} (c : Completion Exn A) : IO A := ([], c).

Notation "'await!' x := m 'in' k" := (bind m (fun x => k))
  (at level 10, x name, m at level 100, k at level 200).

Section WithWorld.
Variable w : World.

(** [a || b] on the strings of [process.env]. *)
Definition env_or (a : option string) (b : string) : string :=
  match a with
  | Some s => if nonempty s then s else b
  | None => b
  end.

Definition getCdpWsUrlFromEnv : option string :=
  let raw := trim (env_or (env_LIGHTPANDA_CDP_URL w)
                          (env_or (env_CDP_WS_URL w) "")) in
  if nonempty raw then Some raw else None.

Definition describeWsEndpoint (raw : string) : string :=
  match new_URL w raw with
  | Normal u => protocol u +:+ "//" +:+ host u +:+ pathname u
  | Throw _ => "(invalid url)"
  end.

Definition assertDnsResolves (hostname : string) : IO unit :=
  io (IoDns hostname)
     match dns_lookup w hostname with
     | DnsResolves => Normal tt
     | DnsFails code =>
         if String.eqb code "ENOTFOUND"
         then Throw (Error ("DNS lookup failed for host '" +:+ hostname
                            +:+ "' (ENOTFOUND)."))
         else Normal tt
     end.

Definition no_websocket_message : string :=
  "WebSocket is not available in this Node.js runtime. Use Node >= 20 (recommended) or install the 'ws' package.".

Definition connectWebSocket (wsUrl : string) (timeout : Z) : IO Client :=
  if websocket_available w then
    io (IoWebSocket wsUrl timeout)
       match new_WebSocket w wsUrl with
       | WsOpens => Normal (Connected wsUrl)
       | WsErrors => Throw (Error "WebSocket error")
       | WsTimesOut => Throw (Error "WebSocket connect timeout")
       | WsThrows e => Throw e
       end
  else throw (Error no_websocket_message).

(** [connectWebSocket(v)] for a value out of a JSON document: the socket
    constructor takes the string of its argument, and throws the
    [TypeError] of the conversion, with no socket made, when there is
    none. *)
Definition connectWebSocket_of (wsUrl : JsValue) (timeout : Z) : IO Client :=
  match to_string wsUrl with
  | Some url => connectWebSocket url timeout
  | None =>
      if websocket_available w then throw (conversion_error w)
      else throw (Error no_websocket_message)
  end.

Definition fetchJsonWithTimeout (url : string) (timeoutMs : Z) : IO JsValue :=
  io (IoFetch url timeoutMs)
     match fetch w url with
     | FetchRejects e => Throw e
     | FetchResponds ok status json =>
         if ok then json else Throw (Error ("HTTP " +:+ pretty status))
     end.

(** [joinUrl].  The path is appended as [u.pathname = ...] stores it for
    a path of letters, digits, slashes, hyphens and underscores on an
    [http] or [https] base, which is what the one call of the source
    passes ([/json/version] on the endpoint); what the setter does with
    other characters (percent-encoding, dot segments) is not part of the
    model. *)
Definition joinUrl (base path : string) : Completion Exn string :=
  match new_URL w base with
  | Throw e => Throw e
  | Normal u =>
      let normalized := if startsWith path "/" then path else "/" +:+ path in
      Normal (href {| protocol := protocol u; username := username u;
                      password := password u; hostname := hostname u;
                      port := port u;
                      pathname := strip_trailing_slash (pathname u)
                                  +:+ normalized;
                      search := search u; hash := hash u |})
  end.

Definition resolveWsFromHttp (httpUrl : string) (timeoutMs : Z) : IO JsValue :=
  await! first :=
    try_catch
      (await! json := fetchJsonWithTimeout httpUrl timeoutMs in
       ret (if truthy (get_opt json "webSocketDebuggerUrl")
            then Some (get json "webSocketDebuggerUrl") else None))
      (fun _ => ret None) in
  match first with
  | Some url => ret url
  | None =>
      await! versionUrl := lift (joinUrl httpUrl "/json/version") in
      await! json := fetchJsonWithTimeout versionUrl timeoutMs in
      if truthy (get_opt json "webSocketDebuggerUrl")
      then ret (get json "webSocketDebuggerUrl")
      else throw (Error "Could not resolve webSocketDebuggerUrl from HTTP endpoint.")
  end.

Definition guessWsFromHttp (httpUrl : string) : Completion Exn string :=
  match new_URL w httpUrl with
  | Throw e => Throw e
  | Normal u =>
      Normal (href {| protocol := if String.eqb (protocol u) "https:"
                                  then "wss:" else "ws:";
                      username := username u; password := password u;
                      hostname := hostname u; port := port u;
                      pathname := if String.eqb (pathname u) ""
                                     || String.eqb (pathname u) "/"
                                  then "/ws" else pathname u;
                      search := search u; hash := hash u |})
  end.

Definition invalid_endpoint_message : string :=
  "Invalid LIGHTPANDA_CDP_URL/CDP_WS_URL (must start with ws://, wss://, http://, or https://).".

Definition connect_timeout_message : string :=
  "Connection timeout - set LIGHTPANDA_CDP_URL (recommended) or run Chrome with --remote-debugging-port=9222.".

(** The message of the error that the [catch] of the environment branch
    throws for the caught [e]. *)
Definition wrapped_message (envWsUrl : string) (e : Exn) : string :=
  let endpoint := describeWsEndpoint envWsUrl in
  let detail := redactSecrets (exn_message e) in
  let suffix := if nonempty detail then " " +:+ detail else "" in
  "Failed to connect to CDP websocket at " +:+ endpoint +:+
  ". Verify LIGHTPANDA_CDP_URL and your network access." +:+ suffix.

(** The [try] block of the environment branch. *)
Definition connect_env (envWsUrl : string) (timeout : Z) : IO Client :=
  await! _ :=
    match new_URL w envWsUrl with
    | Normal parsed =>
        if nonempty (hostname parsed)
        then assertDnsResolves (hostname parsed) else ret tt
    | Throw _ => ret tt
    end in
  if startsWith envWsUrl "ws://" || startsWith envWsUrl "wss://" then
    connectWebSocket envWsUrl timeout
  else if startsWith envWsUrl "http://" || startsWith envWsUrl "https://" then
    try_catch
      (await! guess := lift (guessWsFromHttp envWsUrl) in
       connectWebSocket guess timeout)
      (fun _ =>
         await! wsUrl := resolveWsFromHttp envWsUrl timeout in
         connectWebSocket_of wsUrl timeout)
  else throw (Error invalid_endpoint_message).

Definition discovery_url : string := "http://localhost:9222/json/version".

(** The development fallback: a Chrome running locally on port 9222. *)
Definition connect_fallback (timeout : Z) : IO Client :=
  try_catch
    (await! json :=
       io (IoFetch discovery_url timeout)
          match fetch w discovery_url with
          | FetchRejects e => Throw e
          | FetchResponds _ _ json => json
          end in
     if nullish json then throw (destructure_error w)
     else connectWebSocket_of (get json "webSocketDebuggerUrl") timeout)
    (fun e =>
       if String.eqb (exn_name e) "AbortError"
       then throw (Error connect_timeout_message)
       else throw e).

Definition connect (timeout : Z) : IO Client :=
  match getCdpWsUrlFromEnv with
  | Some envWsUrl =>
      try_catch (connect_env envWsUrl timeout)
                (fun e => throw (Error (wrapped_message envWsUrl e)))
  | None => connect_fallback timeout
  end.

End WithWorld.

(** *** The vocabulary of the properties, and sample worlds *)

(** The hostname that [connect] hands to [assertDnsResolves] for the
    endpoint [e], if any. *)
Definition checked_hostname (w : World) (e : string) : option string :=
  match new_URL w e with
  | Normal parsed =>
      if nonempty (hostname parsed) then Some (hostname parsed) else None
  | Throw _ => None
  end.

Definition unsupported_scheme (e : string) : Prop :=
  startsWith e "ws://" = false /\ startsWith e "wss://" = false /\
  startsWith e "http://" = false /\ startsWith e "https://" = false.

Definition dns_error_message (h : string) : string :=
  "DNS lookup failed for host '" +:+ h +:+ "' (ENOTFOUND).".

(** The error that the [try] block of the environment branch ends with on
    an endpoint of unsupported scheme. *)
Definition unsupported_failure (w : World) (e : string) : Exn :=
  match checked_hostname w e with
  | Some h =>
      match dns_lookup w h with
      | DnsFails code =>
          if String.eqb code "ENOTFOUND" then Error (dns_error_message h)
          else Error invalid_endpoint_message
      | DnsResolves => Error invalid_endpoint_message
      end
  | None => Error invalid_endpoint_message
  end.

(** A world whose environment names an [ftp] endpoint, with a resolver
    that answers [dns]. *)
Definition ftp_url : URL :=
  {| protocol := "ftp:"; username := ""; password := ""; hostname := "host";
     port := ""; pathname := "/path"; search := ""; hash := "" |}.

Definition invalid_url : Exn :=
  {| exn_name := "TypeError"; exn_message := "Invalid URL" |}.

Definition no_string_form : Exn :=
  {| exn_name := "TypeError";
     exn_message := "Cannot convert object to primitive value" |}.

Definition ftp_world (dns : DnsResult) : World :=
  {| env_LIGHTPANDA_CDP_URL := Some "ftp://host/path";
     env_CDP_WS_URL := None;
     new_URL := fun s => if String.eqb s "ftp://host/path"
                         then Normal ftp_url else Throw invalid_url;
     dns_lookup := fun _ => dns;
     websocket_available := true;
     new_WebSocket := fun _ => WsErrors;
     fetch := fun _ => FetchRejects invalid_url;
     destructure_error := invalid_url;
     conversion_error := no_string_form |}.

(** No endpoint in the environment: both variables unset or empty. *)
Definition no_endpoint (w : World) : Prop :=
  (env_LIGHTPANDA_CDP_URL w = None \/ env_LIGHTPANDA_CDP_URL w = Some "") /\
  (env_CDP_WS_URL w = None \/ env_CDP_WS_URL w = Some "").

(** Where a failure of the fallback comes from: the timeout error of
    [connect] itself, or an error raised by the discovery fetch, by
    reading its body, by destructuring it, by converting the URL found
    there to a string, or by [connectWebSocket]. *)
Definition fallback_failure (w : World) (timeout : Z) (e : Exn) : Prop :=
  e = Error connect_timeout_message
  \/ fetch w discovery_url = FetchRejects e
  \/ (exists ok status, fetch w discovery_url = FetchResponds ok status (Throw e))
  \/ e = destructure_error w
  \/ e = conversion_error w
  \/ (exists url, snd (connectWebSocket w url timeout) = Throw e).

(** A world with an empty environment and a local Chrome on port 9222. *)
Definition local_chrome_doc : JsValue :=
  JObj [("Browser", JStr "Chrome/120.0");
        ("webSocketDebuggerUrl", JStr "ws://localhost:9222/devtools/browser/b1")].

Definition local_world (answer : FetchResult) : World :=
  {| env_LIGHTPANDA_CDP_URL := None;
     env_CDP_WS_URL := Some "";
     new_URL := fun _ => Throw invalid_url;
     dns_lookup := fun _ => DnsResolves;
     websocket_available := true;
     new_WebSocket := fun _ => WsOpens;
     fetch := fun _ => answer;
     destructure_error := invalid_url;
     conversion_error := no_string_form |}.

(** A world whose socket constructor reports the handshake it attempted. *)
Definition cloud_url : URL :=
  {| protocol := "wss:"; username := ""; password := "";
     hostname := "cloud.example"; port := ""; pathname := "/ws";
     search := "?token=abc"; hash := "" |}.

Definition handshake_error : Exn :=
  {| exn_name := "Error";
     exn_message := "Handshake refused for wss://cloud.example/ws?token=abc with Authorization: Bearer s3cr3t" |}.

Definition cloud_world : World :=
  {| env_LIGHTPANDA_CDP_URL := Some "wss://cloud.example/ws?token=abc";
     env_CDP_WS_URL := None;
     new_URL := fun s => if String.eqb s "wss://cloud.example/ws?token=abc"
                         then Normal cloud_url else Throw invalid_url;
     dns_lookup := fun _ => DnsResolves;
     websocket_available := true;
     new_WebSocket := fun _ => WsThrows handshake_error;
     fetch := fun _ => FetchRejects invalid_url;
     destructure_error := invalid_url;
     conversion_error := no_string_form |}.

End Connect.

(** ** The [CDP] class

    A client is its fields, the socket it owns, and the platform objects
    that the closures of [send] capture: the promise each call returns and
    the timer each call arms.  Promises and timers are named by fresh
    handles.  The [sessions] map of the constructor is never read or
    written and is left out.  Handlers are named by handles as well; what a
    handler does when called is [handler_body], and the calls made are
    logged in [invoked]. *)

Module Client.

Inductive JsError : Type :=
| Error (message : string)
| SyntaxError
| TypeError.

(** [new Error(v)]: no message for [undefined], [String(v)] otherwise,
    and the [TypeError] of the conversion when [v] has no string. *)
Definition new_Error (v : JsValue) : Completion JsError JsError :=
  match v with
  | JUndefined => Normal (Error "")
  | _ => match to_string v with
         | Some message => Normal (Error message)
         | None => Throw TypeError
         end
  end.

Inductive Promise : Type :=
| Pending
| Fulfilled (v : JsValue)
| Rejected (e : JsError).

(** The pair [{ resolve, reject }] stored by [send]: both closures hold
    the promise of the call and its [timeoutId]. *)
Record Callback : Type := { cb_promise : nat; cb_timer : nat }.

(** The closure given to [setTimeout] by [send]. *)
Record Timer : Type := {
  tm_msgId : Z;
  tm_method : string;
  tm_promise : nat;
  tm_delay : Z
}.

(** The object [msg] that [send] serialises; [sessionId] is set only when
    the argument is truthy. *)
Record Frame : Type := {
  f_id : Z;
  f_method : string;
  f_params : JsValue;
  f_sessionId : option JsValue
}.

Record Call : Type := {
  call_handler : nat;
  call_params : JsValue;
  call_sessionId : JsValue
}.

Record CDP : Type := {
  (* this.ws *)
  ws_closed : bool;
  ws_sent : list Frame;
  (* this.id, this.callbacks, this.eventHandlers *)
  id : Z;
  callbacks : gmap Z Callback;
  eventHandlers : gmap string (list nat);
  (* the platform *)
  promises : gmap nat Promise;
  timers : gmap nat Timer;
  next_object : nat;
  invoked : list Call
}.

(** [new CDP(ws)] on a socket that has just opened. *)
Definition new_CDP : CDP :=
  {| ws_closed := false; ws_sent := []; id := 0; callbacks := ∅;
     eventHandlers := ∅; promises := ∅; timers := ∅; next_object := 0%nat;
     invoked := [] |}.

Definition set_ws (closed : bool) (sent : list Frame) (c : CDP) : CDP :=
  {| ws_closed := closed; ws_sent := sent; id := id c;
     callbacks := callbacks c; eventHandlers := eventHandlers c;
     promises := promises c; timers := timers c;
     next_object := next_object c; invoked := invoked c |}.

Definition set_id (n : Z) (c : CDP) : CDP :=
  {| ws_closed := ws_closed c; ws_sent := ws_sent c; id := n;
     callbacks := callbacks c; eventHandlers := eventHandlers c;
     promises := promises c; timers := timers c;
     next_object := next_object c; invoked := invoked c |}.

Definition set_callbacks (m : gmap Z Callback) (c : CDP) : CDP :=
  {| ws_closed := ws_closed c; ws_sent := ws_sent c; id := id c;
     callbacks := m; eventHandlers := eventHandlers c;
     promises := promises c; timers := timers c;
     next_object := next_object c; invoked := invoked c |}.

Definition set_eventHandlers (m : gmap string (list nat)) (c : CDP) : CDP :=
  {| ws_closed := ws_closed c; ws_sent := ws_sent c; id := id c;
     callbacks := callbacks c; eventHandlers := m;
     promises := promises c; timers := timers c;
     next_object := next_object c; invoked := invoked c |}.

Definition set_promises (m : gmap nat Promise) (c : CDP) : CDP :=
  {| ws_closed := ws_closed c; ws_sent := ws_sent c; id := id c;
     callbacks := callbacks c; eventHandlers := eventHandlers c;
     promises := m; timers := timers c;
     next_object := next_object c; invoked := invoked c |}.

Definition set_timers (m : gmap nat Timer) (c : CDP) : CDP :=
  {| ws_closed := ws_closed c; ws_sent := ws_sent c; id := id c;
     callbacks := callbacks c; eventHandlers := eventHandlers c;
     promises := promises c; timers := m;
     next_object := next_object c; invoked := invoked c |}.

Definition set_next_object (n : nat) (c : CDP) : CDP :=
  {| ws_closed := ws_closed c; ws_sent := ws_sent c; id := id c;
     callbacks := callbacks c; eventHandlers := eventHandlers c;
     promises := promises c; timers := timers c;
     next_object := n; invoked := invoked c |}.

Definition set_invoked (l : list Call) (c : CDP) : CDP :=
  {| ws_closed := ws_closed c; ws_sent := ws_sent c; id := id c;
     callbacks := callbacks c; eventHandlers := eventHandlers c;
     promises := promises c; timers := timers c;
     next_object := next_object c; invoked := l |}.

(** Code that runs against the client: it completes or throws, and
    leaves a client behind either way. *)
Definition M (A : Type) : Type := CDP -> Completion JsError A * CDP.

Definition ret {A} (a : A) : M A := fun c => (Normal a, c).

Definition bind {A B} (m : M A) (f : A -> M B) : M B :=
  fun c =>
    match m c with
    | (Normal a, c') => f a c'
    | (Throw e, c') => (Throw e, c')
    end.

(** [try { m } catch { h }]. *)
Definition try_catch {A} (m : M A) (h : JsError -> M A) : M A :=
  fun c =>
    match m c with
    | (Throw e, c') => h e c'
    | r => r
    end.

(** [for (const x of xs) body(x)]. *)
Fixpoint for_of {X} (xs : list X) (body : X -> M unit) : M unit :=
  match xs with
  | [] => ret tt
  | x :: rest => bind (body x) (fun _ => for_of rest body)
  end.

(** Settling a promise: only a pending promise changes. *)
Definition settle (p : nat) (outcome : Promise) (c : CDP) : CDP :=
  match promises c !! p with
  | Some Pending => set_promises (<[p := outcome]> (promises c)) c
  | _ => c
  end.

Definition clearTimeout (t : nat) (c : CDP) : CDP :=
  set_timers (delete t (timers c)) c.

(** The closures [resolve] and [reject] of a [callbacks] entry. *)
Definition cb_resolve (cb : Callback) (result : JsValue) (c : CDP) : CDP :=
  settle (cb_promise cb) (Fulfilled result) (clearTimeout (cb_timer cb) c).

Definition cb_reject (cb : Callback) (err : JsError) (c : CDP) : CDP :=
  settle (cb_promise cb) (Rejected err) (clearTimeout (cb_timer cb) c).

(** [this.callbacks.get(v)]: the keys are the numbers [send] stored. *)
Definition callbacks_get (v : JsValue) (c : CDP) : option (Z * Callback) :=
  match v with
  | JNum k => match callbacks c !! k with
              | Some cb => Some (k, cb)
              | None => None
              end
  | _ => None
  end.

(** [this.eventHandlers.get(v)]: the keys are the strings [on] stored. *)
Definition eventHandlers_get (v : JsValue) (c : CDP) : option (list nat) :=
  match v with
  | JStr m => eventHandlers c !! m
  | _ => None
  end.

(** *** The invariant of a client

    Every pending entry has its timer armed, the timer of its id and its
    promise; the promise of an armed timer is pending; the keys of
    [callbacks] and the ids of the timers lie between 1 and [id]; and
    handles in use are below [next_object]. *)
Record wf (c : CDP) : Prop := {
  wf_id : 0 <= id c;
  wf_keys : forall k cb, callbacks c !! k = Some cb -> 0 < k <= id c;
  wf_cb_timer : forall k cb, callbacks c !! k = Some cb ->
    exists tm, timers c !! cb_timer cb = Some tm
               /\ tm_msgId tm = k /\ tm_promise tm = cb_promise cb;
  wf_timer_id : forall t tm, timers c !! t = Some tm ->
    0 < tm_msgId tm <= id c;
  wf_timer_pending : forall t tm, timers c !! t = Some tm ->
    promises c !! tm_promise tm = Some Pending;
  wf_timer_handle : forall t tm, timers c !! t = Some tm ->
    t = S (tm_promise tm) /\ (t < next_object c)%nat;
  wf_promise_handle : forall p st, promises c !! p = Some st ->
    (p < next_object c)%nat
}.

(** A call completes, by its reply or by its timer: its entry and its
    timer go, and its promise settles. *)
Definition complete (k : Z) (cb : Callback) (o : Promise) (c : CDP) : CDP :=
  settle (cb_promise cb) o
    (set_timers (delete (cb_timer cb) (timers c))
       (set_callbacks (delete k (callbacks c)) c)).

Definition call_of (params sessionId : JsValue) (h : nat) : Call :=
  {| call_handler := h; call_params := params; call_sessionId := sessionId |}.

Section WithPlatform.
(** [JSON.parse] on the text of a frame: a value, or a [SyntaxError]. *)
Variable JSON_parse : string -> option JsValue.
(** What the handler named [h] does on [(params, sessionId)]. *)
Variable handler_body : nat -> JsValue -> JsValue -> Completion JsError unit.

Definition call_handler_fn (h : nat) (params sessionId : JsValue) : M unit :=
  fun c =>
    (handler_body h params sessionId,
     set_invoked (invoked c ++ [{| call_handler := h; call_params := params;
                                   call_sessionId := sessionId |}])%list c).

Definition on (method : string) (handler : nat) (c : CDP) : CDP :=
  let handlers := default [] (eventHandlers c !! method) in
  let handlers' := if bool_decide (handler ∈ handlers) then handlers
                   else (handlers ++ [handler])%list in
  set_eventHandlers (<[method := handlers']> (eventHandlers c)) c.

Definition off (method : string) (handler : nat) (c : CDP) : CDP :=
  match eventHandlers c !! method with
  | None => c
  | Some handlers =>
      let handlers' := filter (fun h => h ≠ handler) handlers in
      match handlers' with
      | [] => set_eventHandlers (delete method (eventHandlers c)) c
      | _ => set_eventHandlers (<[method := handlers']> (eventHandlers c)) c
      end
  end.

Definition emit (method params sessionId : JsValue) : M unit :=
  fun c =>
    match eventHandlers_get method c with
    | None => (Normal tt, c)
    | Some handlers =>
        for_of handlers
          (fun h => try_catch (call_handler_fn h params sessionId)
                              (fun _ => ret tt)) c
    end.

(** What a socket hands to the listener as the data of a message: a
    string; an [ArrayBuffer], a view on one or a [Buffer], given here by the
    UTF-8 decoding of its bytes; or anything else, given by [String(data)]. *)
Inductive WsData : Type :=
| DataString (s : string)
| DataBinary (utf8 : string)
| DataOther (str : string).

Definition toTextPayload (data : WsData) : string :=
  match data with
  | DataString s => s
  | DataBinary utf8 => utf8
  | DataOther str => str
  end.

(** The listener that the constructor registers for ["message"], from the
    text of the frame on. *)
Definition on_message (text : string) : M unit :=
  fun c =>
    match JSON_parse text with
    | None => (Throw SyntaxError, c)
    | Some msg =>
        if nullish msg then (Throw TypeError, c) else
        match (if truthy (get msg "id")
               then callbacks_get (get msg "id") c else None) with
        | Some (k, cb) =>
            let c1 := set_callbacks (delete k (callbacks c)) c in
            if truthy (get msg "error")
            then match new_Error (get (get msg "error") "message") with
                 | Normal err => (Normal tt, cb_reject cb err c1)
                 | Throw e => (Throw e, c1)
                 end
            else (Normal tt, cb_resolve cb (get msg "result") c1)
        | None =>
            if truthy (get msg "method")
            then emit (get msg "method")
                      (js_or (get msg "params") (JObj []))
                      (js_or (get msg "sessionId") JNull) c
            else (Normal tt, c)
        end
    end.

(** The listener itself: [raw] is the data of the event, or the argument
    of the listener when the socket passes the data directly. *)
Definition message_listener (raw : WsData) : M unit :=
  on_message (toTextPayload raw).

(** A parameter with a default: the default stands in for [undefined]. *)
Definition or_default (v default : JsValue) : JsValue :=
  match v with JUndefined => default | _ => v end.

(** [send]: the promise it returns, and the client afterwards.  [++this.id]
    is exact: a client never makes the 2^53 calls it takes to leave the
    integers that a number holds exactly. *)
Definition send (method : string) (params sessionId : JsValue) (timeout : Z)
  (c : CDP) : nat * CDP :=
  let params := or_default params (JObj []) in
  let sessionId := or_default sessionId JNull in
  let promise := next_object c in
  let c := set_promises (<[promise := Pending]> (promises c))
             (set_next_object (S promise) c) in
  let msgId := id c + 1 in
  let c := set_id msgId c in
  let msg := {| f_id := msgId; f_method := method; f_params := params;
                f_sessionId := if truthy sessionId then Some sessionId
                               else None |} in
  let timeoutId := next_object c in
  let c := set_timers (<[timeoutId := {| tm_msgId := msgId;
                                         tm_method := method;
                                         tm_promise := promise;
                                         tm_delay := timeout |}]> (timers c))
             (set_next_object (S timeoutId) c) in
  let c := set_callbacks (<[msgId := {| cb_promise := promise;
                                        cb_timer := timeoutId |}]>
                            (callbacks c)) c in
  (promise, set_ws (ws_closed c) (ws_sent c ++ [msg])%list c).

(** The timer [t] of a [send] fires; a timer that was cleared, or has
    fired, does not. *)
Definition fire_timer (t : nat) (c : CDP) : CDP :=
  match timers c !! t with
  | None => c
  | Some tm =>
      let c := set_timers (delete t (timers c)) c in
      let c := set_callbacks (delete (tm_msgId tm) (callbacks c)) c in
      settle (tm_promise tm)
             (Rejected (Error ("CDP timeout: " +:+ tm_method tm))) c
  end.

Definition close (c : CDP) : CDP := set_ws true (ws_sent c) c.




(** How a reply settles its call: the outcome for the promise, or the
    error that building the outcome throws. *)
Definition reply_outcome (msg : JsValue) : Completion JsError Promise :=
  if truthy (get msg "error")
  then match new_Error (get (get msg "error") "message") with
       | Normal err => Normal (Rejected err)
       | Throw e => Throw e
       end
  else Normal (Fulfilled (get msg "result")).

(** The listener, for a frame that parsed to [msg]. *)
Definition dispatch (msg : JsValue) : M unit :=
  fun c =>
    match (if truthy (get msg "id")
           then callbacks_get (get msg "id") c else None) with
    | Some (k, cb) =>
        match reply_outcome msg with
        | Normal o => (Normal tt, complete k cb o c)
        | Throw e => (Throw e, set_callbacks (delete k (callbacks c)) c)
        end
    | None =>
        if truthy (get msg "method")
        then emit (get msg "method") (js_or (get msg "params") (JObj []))
                  (js_or (get msg "sessionId") JNull) c
        else (Normal tt, c)
    end.

(** What can happen to a client: a call of one of its methods, a frame
    given to its listener, or one of its timers firing.  A history is any
    sequence of these; it goes on after a listener that threw, which is
    what a socket that outlives the exception does. *)
Inductive Event : Type :=
| ESend (method : string) (params sessionId : JsValue) (timeout : Z)
| EMessage (text : string)
| ETimer (t : nat)
| EClose
| EOn (method : string) (handler : nat)
| EOff (method : string) (handler : nat).

Definition step (c : CDP) (ev : Event) : CDP :=
  match ev with
  | ESend method params sessionId timeout =>
      snd (send method params sessionId timeout c)
  | EMessage text => snd (on_message text c)
  | ETimer t => fire_timer t c
  | EClose => close c
  | EOn method handler => on method handler c
  | EOff method handler => off method handler c
  end.

Definition run (evs : list Event) (c : CDP) : CDP := fold_left step evs c.

Definition reachable (c : CDP) : Prop := exists evs, c = run evs new_CDP.

End WithPlatform.

(** *** The vocabulary of the properties, and a sample platform *)

(** The number of [send] calls among the events. *)
Fixpoint count_sends (evs : list Event) : nat :=
  match evs with
  | [] => O
  | ESend _ _ _ _ :: rest => S (count_sends rest)
  | _ :: rest => count_sends rest
  end.

(** The client after each handler of [hs] was called once, in order, with
    [(params, sessionId)]. *)
Definition delivered (params sessionId : JsValue) (hs : list nat) (c : CDP) : CDP :=
  set_invoked (invoked c ++ map (call_of params sessionId) hs)%list c.

(** A frame that is a reply: it names no method. *)
Definition reply_shaped (msg : JsValue) : Prop :=
  nullish msg = false /\ truthy (get msg "method") = false.

(** A frame that is an event of [method] for the client: it names the
    method, and its id, if it has one, is not that of a pending call. *)
Definition event_for (c : CDP) (method : string) (msg : JsValue) : Prop :=
  get msg "method" = JStr method /\ nonempty method = true
  /\ (truthy (get msg "id") = true -> callbacks_get (get msg "id") c = None).

Definition dq : string := String (ascii_of_nat 34) EmptyString.
Definition quoted (s : string) : string := dq +:+ s +:+ dq.

Definition malformed_text : string := "{".

Definition reply_text : string :=
  "{" +:+ quoted "id" +:+ ":1," +:+ quoted "result" +:+ ":{" +:+
  quoted "product" +:+ ":" +:+ quoted "Chrome" +:+ "}}".

Definition reply_msg : JsValue :=
  JObj [("id", JNum 1); ("result", JObj [("product", JStr "Chrome")])].

Definition error_text : string :=
  "{" +:+ quoted "id" +:+ ":1," +:+ quoted "error" +:+ ":{" +:+
  quoted "code" +:+ ":-32000," +:+ quoted "message" +:+ ":" +:+
  quoted "No target" +:+ "}}".

Definition error_msg : JsValue :=
  JObj [("id", JNum 1);
        ("error", JObj [("code", JNum (-32000)); ("message", JStr "No target")])].

Definition event_text : string :=
  "{" +:+ quoted "method" +:+ ":" +:+ quoted "Page.loadEventFired" +:+ "," +:+
  quoted "params" +:+ ":{" +:+ quoted "timestamp" +:+ ":7}}".

Definition event_msg : JsValue :=
  JObj [("method", JStr "Page.loadEventFired");
        ("params", JObj [("timestamp", JNum 7)])].

(** A reply whose error has an object for a message, and the object a
    [toString] of its own. *)
Definition unprintable_text : string :=
  "{" +:+ quoted "id" +:+ ":1," +:+ quoted "error" +:+ ":{" +:+
  quoted "message" +:+ ":{" +:+ quoted "toString" +:+ ":1}}}".

Definition unprintable_msg : JsValue :=
  JObj [("id", JNum 1);
        ("error", JObj [("message", JObj [("toString", JNum 1)])])].

(** A [JSON.parse] for the sample frames: it agrees with the real one on
    each of them, and nothing else is given to it. *)
Definition sample_parse (text : string) : option JsValue :=
  if String.eqb text reply_text then Some reply_msg
  else if String.eqb text error_text then Some error_msg
  else if String.eqb text event_text then Some event_msg
  else if String.eqb text unprintable_text then Some unprintable_msg
  else None.

(** Handler 1 throws whatever it is given; the others return. *)
Definition sample_handler (h : nat) (params sessionId : JsValue)
  : Completion JsError unit :=
  if Nat.eqb h 1 then Throw (Error "boom") else Normal tt.

(** A client with one call of [Browser.getVersion] awaiting its reply. *)
Definition one_pending : CDP :=
  snd (send "Browser.getVersion" (JObj []) JNull 10000 new_CDP).

(** A client with handlers 1 and 2 registered for [Page.loadEventFired]. *)
Definition two_handlers : CDP :=
  on "Page.loadEventFired" 2 (on "Page.loadEventFired" 1 new_CDP).



End Client.

(** ** More vocabulary: texts *)

Module Text.

(** Every character of [s] satisfies [f]. *)
Fixpoint all_chars (f : ascii -> bool) (s : string) : bool :=
  match s with
  | EmptyString => true
  | String c r => f c && all_chars f r
  end.

(** [kw] occurs in [s], letters compared without case. *)
Fixpoint mentions (kw s : string) : bool :=
  match prefix_ci kw s with
  | Some _ => true
  | None =>
      match s with
      | EmptyString => false
      | String _ r => mentions kw r
      end
  end.

(** A character at which none of the expressions of [redactSecrets] can
    start a match: not a [t] and not an [a], in either case. *)
Definition plain_char (c : ascii) : bool :=
  negb (ci_eqb "t" c) && negb (ci_eqb "a" c).

Definition not_a (c : ascii) : bool := negb (ci_eqb "a" c).
Definition not_t (c : ascii) : bool := negb (ci_eqb "t" c).

(** A character that the [pathname] setter of [URL] stores as it is
    written, wherever it stands in a path: a letter, a digit, a slash, a
    hyphen or an underscore (no dot, so no dot segment is resolved, and
    nothing that the setter percent-encodes). *)
Definition path_char (c : ascii) : bool :=
  let n := nat_of_ascii c in
  Nat.leb 48 n && Nat.leb n 57 || Nat.leb 65 n && Nat.leb n 90
  || Nat.leb 97 n && Nat.leb n 122
  || Nat.eqb n 47 || Nat.eqb n 45 || Nat.eqb n 95.

(** [g] is the text [token=], in some mix of cases. *)
Definition token_key (g : string) : Prop :=
  prefix_ci "token=" g = Some (g, EmptyString).

(** [rest] is empty or starts with a character that ends a value: an
    ampersand or white space. *)
Definition ends_value (rest : string) : Prop :=
  match rest with
  | EmptyString => True
  | String c _ => value_char c = false
  end.

End Text.

(** ** More vocabulary: [connect] *)

Module ConnectTerms.
Import Connect.

(** The world [w] with another resolver. *)
Definition with_dns (w : World) (dns : string -> DnsResult) : World :=
  {| env_LIGHTPANDA_CDP_URL := env_LIGHTPANDA_CDP_URL w;
     env_CDP_WS_URL := env_CDP_WS_URL w;
     new_URL := new_URL w;
     dns_lookup := dns;
     websocket_available := websocket_available w;
     new_WebSocket := new_WebSocket w;
     fetch := fetch w;
     destructure_error := destructure_error w;
     conversion_error := conversion_error w |}.

(** The lookup failed with [ENOTFOUND]. *)
Definition not_found (r : DnsResult) : bool :=
  match r with
  | DnsFails code => String.eqb code "ENOTFOUND"
  | DnsResolves => false
  end.

(** The lookup that [connect] starts for the endpoint [e], and whether it
    stops [connect]. *)
Definition dns_events (w : World) (e : string) : list IoEvent :=
  match checked_hostname w e with Some h => [IoDns h] | None => [] end.

Definition dns_blocks (w : World) (e : string) : bool :=
  match checked_hostname w e with
  | Some h => not_found (dns_lookup w h)
  | None => false
  end.

(** The first and the second half of the [try] block of the environment
    branch; [connect_env] is the one followed by the other. *)
Definition precheck (w : World) (envWsUrl : string) : IO unit :=
  match new_URL w envWsUrl with
  | Normal parsed =>
      if nonempty (hostname parsed)
      then assertDnsResolves w (hostname parsed) else ret tt
  | Throw _ => ret tt
  end.

Definition after_precheck (w : World) (envWsUrl : string) (timeout : Z) : IO Client :=
  if startsWith envWsUrl "ws://" || startsWith envWsUrl "wss://" then
    connectWebSocket w envWsUrl timeout
  else if startsWith envWsUrl "http://" || startsWith envWsUrl "https://" then
    try_catch
      (bind (lift (guessWsFromHttp w envWsUrl))
            (fun guess => connectWebSocket w guess timeout))
      (fun _ =>
         bind (resolveWsFromHttp w envWsUrl timeout)
              (fun wsUrl => connectWebSocket_of w wsUrl timeout))
  else throw (Error invalid_endpoint_message).


Definition with_pathname (u : URL) (p : string) : URL :=
  {| protocol := protocol u; username := username u; password := password u;
     hostname := hostname u; port := port u; pathname := p;
     search := search u; hash := hash u |}.

Definition leading_slash (path : string) : string :=
  if startsWith path "/" then path else "/" +:+ path.

(** What the first attempt of [resolveWsFromHttp] finds at the URL as it
    is given. *)
Definition first_attempt (w : World) (url : string) : option JsValue :=
  match fetch w url with
  | FetchResponds true _ (Normal doc) =>
      if truthy (get_opt doc "webSocketDebuggerUrl")
      then Some (get doc "webSocketDebuggerUrl") else None
  | _ => None
  end.

Definition is_fetch (ev : IoEvent) : bool :=
  match ev with IoFetch _ _ => true | _ => false end.

(** Sample worlds: an environment, one URL that parses, and the answers of
    the resolver, the socket and [fetch]. *)
Definition sample_world (lightpanda alias : option string)
  (endpoint : string) (parsed : URL) (dns : DnsResult) (ws : string -> WsResult)
  (answer : string -> FetchResult) : World :=
  {| env_LIGHTPANDA_CDP_URL := lightpanda;
     env_CDP_WS_URL := alias;
     new_URL := fun s => if String.eqb s endpoint then Normal parsed
                         else Throw invalid_url;
     dns_lookup := fun _ => dns;
     websocket_available := true;
     new_WebSocket := ws;
     fetch := answer;
     destructure_error := invalid_url;
     conversion_error := no_string_form |}.

Definition http_url : URL :=
  {| protocol := "https:"; username := ""; password := "";
     hostname := "cloud.example"; port := ""; pathname := "/";
     search := "?token=abc"; hash := "" |}.

Definition cloud_run (dns : DnsResult) (ws : string -> WsResult) : World :=
  sample_world (Some " wss://cloud.example/ws?token=abc ") (Some "ws://other/")
    "wss://cloud.example/ws?token=abc" cloud_url dns ws
    (fun _ => FetchRejects invalid_url).

Definition http_run (ws : string -> WsResult) (answer : string -> FetchResult) : World :=
  sample_world (Some "https://cloud.example/?token=abc") None
    "https://cloud.example/?token=abc" http_url DnsResolves ws answer.

End ConnectTerms.

(** ** More vocabulary: the [CDP] class *)

Module ClientTerms.
Import Client.

(** The handlers registered for a method, in the order of registration. *)
Definition handlers_of (c : CDP) (method : string) : list nat :=
  default [] (eventHandlers c !! method).

(** The sets of [eventHandlers] are sets: none is empty and none holds a
    handler twice. *)
Definition handlers_ok (c : CDP) : Prop :=
  forall method hs, eventHandlers c !! method = Some hs -> hs <> [] /\ NoDup hs.

(** Every pending promise has the timer of its call armed. *)
Definition pending_armed (c : CDP) : Prop :=
  forall p, promises c !! p = Some Pending ->
            exists tm, timers c !! S p = Some tm /\ tm_promise tm = p.

(** [t.type === "page"]. *)
Definition is_page (t : JsValue) : bool :=
  match get t "type" with
  | JStr s => String.eqb s "page"
  | _ => false
  end.

(** [getPages]: the [send] it issues, and what it does with the result. *)
Definition getPages (c : CDP) : nat * CDP :=
  send "Target.getTargets" (JObj []) JNull 10000 c.

Definition getPages_result (result : JsValue) : Completion JsError JsValue :=
  if nullish result then Throw TypeError else
  match get result "targetInfos" with
  | JArr targetInfos =>
      if existsb nullish targetInfos then Throw TypeError
      else Normal (JArr (List.filter is_page targetInfos))
  | _ => Throw TypeError
  end.

Definition sample_targets : JsValue :=
  JObj [("targetInfos",
         JArr [JObj [("targetId", JStr "T1"); ("type", JStr "page")];
               JObj [("targetId", JStr "W1"); ("type", JStr "service_worker")];
               JObj [("targetId", JStr "T2"); ("type", JStr "page")]])].

End ClientTerms.

(** * Properties *)

(** ** Strings and values on small inputs *)

Example redact_token :
  redactSecrets "wss://h/ws?token=abc&x=1" = "wss://h/ws?token=***&x=1".
Proof. reflexivity. Qed.

Example redact_access_token :
  redactSecrets "a?Access-Token=s3 b" = "a?Access-Token=*** b".
Proof. reflexivity. Qed.

Example redact_plain_authorization :
  redactSecrets "Authorization:   abc" = "Authorization: ***".
Proof. reflexivity. Qed.

Example trim_spaces : trim "  ftp://host/path " = "ftp://host/path".
Proof. reflexivity. Qed.

Example to_string_array :
  to_string (JArr [JNum 1; JNull; JStr "a"; JNum (-20)]) = Some "1,,a,-20".
Proof. vm_compute. reflexivity. Qed.

Example to_string_numbers :
  map number_to_string
      [0; 9007199254740992; 18446744073709552000; 999999999999999868928;
       1000000000000000000000; 1180591620717411303424;
       99999999999999991611392; -1500000000000000000000]
  = ["0"; "9007199254740992"; "18446744073709552000"; "999999999999999900000";
     "1e+21"; "1.1805916207174113e+21"; "1e+23"; "-1.5e+21"].
Proof. vm_compute. reflexivity. Qed.

Example to_string_objects :
  to_string (JObj [("message", JStr "m")]) = Some "[object Object]"
  /\ to_string (JObj [("toString", JNum 1)]) = None
  /\ to_string (JArr [JNum 1; JObj [("toString", JNull)]]) = None
  /\ to_string (JArr [JArr [JNum 1; JNum 2]; JObj []]) = Some "1,2,[object Object]".
Proof. vm_compute. repeat split. Qed.

(** ** [connect] *)

Module ConnectFacts.
Import Connect.

Lemma redact_invalid_endpoint_message :
  redactSecrets invalid_endpoint_message = invalid_endpoint_message.
Proof. vm_compute. reflexivity. Qed.

Example connect_ftp_resolving :
  connect (ftp_world DnsResolves) 5000 =
  ([IoDns "host"],
   Throw (Error "Failed to connect to CDP websocket at ftp://host/path. Verify LIGHTPANDA_CDP_URL and your network access. Invalid LIGHTPANDA_CDP_URL/CDP_WS_URL (must start with ws://, wss://, http://, or https://).")).
Proof. vm_compute. reflexivity. Qed.

Example connect_ftp_not_found :
  connect (ftp_world (DnsFails "ENOTFOUND")) 5000 =
  ([IoDns "host"],
   Throw (Error "Failed to connect to CDP websocket at ftp://host/path. Verify LIGHTPANDA_CDP_URL and your network access. DNS lookup failed for host 'host' (ENOTFOUND).")).
Proof. vm_compute. reflexivity. Qed.

(** C3, as stated, fails: for the endpoint [ftp://host/path] the hostname
    is looked up before the scheme is examined, so it is not true that
    every endpoint of unsupported scheme is rejected with no network
    operation started. *)
Lemma connect_unsupported_scheme_not_io_free :
  fst (connect (ftp_world DnsResolves) 5000) = [IoDns "host"]
  /\ ~ (forall (w : World) (timeout : Z) (e : string),
          getCdpWsUrlFromEnv w = Some e -> unsupported_scheme e ->
          fst (connect w timeout) = []).
Proof.
  split; [vm_compute; reflexivity|].
  intros H.
  assert (Henv : getCdpWsUrlFromEnv (ftp_world DnsResolves)
                 = Some "ftp://host/path") by (vm_compute; reflexivity).
  assert (Hscheme : unsupported_scheme "ftp://host/path") by (repeat split).
  specialize (H (ftp_world DnsResolves) 5000 "ftp://host/path" Henv Hscheme).
  vm_compute in H. discriminate H.
Qed.

(** C3, amended: an endpoint whose scheme is none of [ws://], [wss://],
    [http://], [https://] makes [connect] fail without opening a socket or
    fetching anything; the only network operation it may start is one DNS
    lookup, of the hostname of the endpoint when it parses as a URL with a
    hostname.  The failure is the wrapped configuration error, or the
    wrapped DNS error when that lookup answers ENOTFOUND. *)
Theorem connect_unsupported_scheme (w : World) (timeout : Z) (e : string) :
  getCdpWsUrlFromEnv w = Some e ->
  unsupported_scheme e ->
  fst (connect w timeout) =
    match checked_hostname w e with Some h => [IoDns h] | None => [] end
  /\ (forall ev, In ev (fst (connect w timeout)) ->
      exists h, ev = IoDns h /\ checked_hostname w e = Some h)
  /\ snd (connect w timeout) =
     Throw (Error (wrapped_message w e (unsupported_failure w e)))
  /\ wrapped_message w e (Error invalid_endpoint_message) =
     "Failed to connect to CDP websocket at " +:+ describeWsEndpoint w e +:+
     ". Verify LIGHTPANDA_CDP_URL and your network access. " +:+
     invalid_endpoint_message.
Proof.
  intros Henv (Hws & Hwss & Hhttp & Hhttps).
  assert (Hrun : connect w timeout =
                 (match checked_hostname w e with
                  | Some h => [IoDns h] | None => [] end,
                  Throw (Error (wrapped_message w e (unsupported_failure w e))))).
  { unfold connect. rewrite Henv.
    unfold connect_env, unsupported_failure, checked_hostname.
    rewrite Hws, Hwss, Hhttp, Hhttps. simpl.
    destruct (new_URL w e) as [parsed|err]; simpl; [|reflexivity].
    destruct (nonempty (hostname parsed)); simpl; [|reflexivity].
    unfold assertDnsResolves, io.
    destruct (dns_lookup w (hostname parsed)) as [|code]; simpl;
      [reflexivity|].
    destruct (String.eqb code "ENOTFOUND"); reflexivity. }
  rewrite Hrun. simpl. split; [reflexivity|]. split; [|split].
  - intros ev Hin. destruct (checked_hostname w e) as [h|]; simpl in Hin.
    + destruct Hin as [<-|[]]. exists h. split; reflexivity.
    + destruct Hin.
  - reflexivity.
  - unfold wrapped_message. simpl exn_message.
    rewrite redact_invalid_endpoint_message. reflexivity.
Qed.

Lemma connect_unsupported_scheme_witness :
  fst (connect (ftp_world DnsResolves) 5000) = [IoDns "host"].
Proof.
  destruct (connect_unsupported_scheme (ftp_world DnsResolves) 5000
              "ftp://host/path") as (Htrace & _).
  - vm_compute. reflexivity.
  - repeat split.
  - exact Htrace.
Defined.

(** *** The development fallback *)

Lemma no_endpoint_env (w : World) :
  no_endpoint w -> getCdpWsUrlFromEnv w = None.
Proof.
  intros [[H1|H1] [H2|H2]]; unfold getCdpWsUrlFromEnv;
    rewrite H1, H2; reflexivity.
Qed.

Example connect_local_chrome :
  connect (local_world (FetchResponds true 200 (Normal local_chrome_doc))) 5000 =
  ([IoFetch "http://localhost:9222/json/version" 5000;
    IoWebSocket "ws://localhost:9222/devtools/browser/b1" 5000],
   Normal (Connected "ws://localhost:9222/devtools/browser/b1")).
Proof. vm_compute. reflexivity. Qed.

Example connect_local_aborted :
  connect (local_world (FetchRejects {| exn_name := "AbortError";
                                        exn_message := "This operation was aborted" |}))
          5000 =
  ([IoFetch "http://localhost:9222/json/version" 5000],
   Throw (Error "Connection timeout - set LIGHTPANDA_CDP_URL (recommended) or run Chrome with --remote-debugging-port=9222.")).
Proof. vm_compute. reflexivity. Qed.

(** C10: with no endpoint in the environment, [connect] starts with the
    discovery fetch of [http://localhost:9222/json/version] under the
    given timeout and no other operation before it; it then opens a socket
    to the [webSocketDebuggerUrl] of the document, under the same timeout,
    and returns the client when the socket opens; a fetch aborted by the
    timer fails with the timeout message that names LIGHTPANDA_CDP_URL;
    and no failure comes from the check of the endpoint: each is that
    timeout error or an error of the fetch, of the document, of the
    conversion of its URL or of the socket. *)
Theorem connect_no_endpoint (w : World) (timeout : Z) :
  no_endpoint w ->
  (exists rest,
     fst (connect w timeout)
     = IoFetch "http://localhost:9222/json/version" timeout :: rest)
  /\ (forall ok status doc url,
        fetch w "http://localhost:9222/json/version"
        = FetchResponds ok status (Normal doc) ->
        get doc "webSocketDebuggerUrl" = JStr url ->
        websocket_available w = true ->
        fst (connect w timeout) =
          [IoFetch "http://localhost:9222/json/version" timeout;
           IoWebSocket url timeout]
        /\ (new_WebSocket w url = WsOpens ->
            snd (connect w timeout) = Normal (Connected url)))
  /\ (forall e,
        fetch w "http://localhost:9222/json/version" = FetchRejects e ->
        exn_name e = "AbortError" ->
        connect w timeout =
          ([IoFetch "http://localhost:9222/json/version" timeout],
           Throw (Error "Connection timeout - set LIGHTPANDA_CDP_URL (recommended) or run Chrome with --remote-debugging-port=9222.")))
  /\ (forall e, snd (connect w timeout) = Throw e ->
        e = Error "Connection timeout - set LIGHTPANDA_CDP_URL (recommended) or run Chrome with --remote-debugging-port=9222."
        \/ fetch w "http://localhost:9222/json/version" = FetchRejects e
        \/ (exists ok status,
              fetch w "http://localhost:9222/json/version"
              = FetchResponds ok status (Throw e))
        \/ e = destructure_error w
        \/ e = conversion_error w
        \/ (exists url, snd (connectWebSocket w url timeout) = Throw e)).
Proof.
  intros Hno.
  change "http://localhost:9222/json/version" with discovery_url.
  change (Error "Connection timeout - set LIGHTPANDA_CDP_URL (recommended) or run Chrome with --remote-debugging-port=9222.")
    with (Error connect_timeout_message).
  unfold connect. rewrite (no_endpoint_env w Hno).
  unfold connect_fallback, io.
  split; [|split; [|split]].
  - destruct (fetch w discovery_url) as [e|ok status [doc|e]]; simpl.
    + destruct (String.eqb (exn_name e) "AbortError"); simpl; eauto.
    + destruct (nullish doc); simpl.
      * destruct (String.eqb (exn_name (destructure_error w)) "AbortError");
          simpl; eauto.
      * destruct (connectWebSocket_of w (get doc "webSocketDebuggerUrl") timeout)
          as [t [c|e0]]; simpl; eauto.
        destruct (String.eqb (exn_name e0) "AbortError"); simpl; eauto.
    + destruct (String.eqb (exn_name e) "AbortError"); simpl; eauto.
  - intros ok status doc url Hfetch Hurl Havail. rewrite Hfetch. simpl.
    assert (Hnn : nullish doc = false).
    { destruct doc; try reflexivity; simpl in Hurl; discriminate Hurl. }
    rewrite Hnn. unfold connectWebSocket_of. rewrite Hurl. simpl.
    unfold connectWebSocket, io. rewrite Havail.
    split.
    + destruct (new_WebSocket w url) as [| | |e]; simpl; try reflexivity.
      destruct (String.eqb (exn_name e) "AbortError"); reflexivity.
    + intros Hopen. rewrite Hopen. reflexivity.
  - intros e Hfetch Hname. rewrite Hfetch. simpl. rewrite Hname. reflexivity.
  - intros e.
    destruct (fetch w discovery_url) as [e0|ok status [doc|e0]] eqn:Hfetch;
      simpl.
    + destruct (String.eqb (exn_name e0) "AbortError"); simpl;
        intros [= <-]; auto.
    + destruct (nullish doc); simpl.
      * destruct (String.eqb (exn_name (destructure_error w)) "AbortError");
          simpl; intros [= <-]; auto.
      * destruct (connectWebSocket_of w (get doc "webSocketDebuggerUrl") timeout)
          as [t [c|e0]] eqn:Hws; simpl; [discriminate|].
        destruct (String.eqb (exn_name e0) "AbortError"); simpl;
          intros [= <-]; auto.
        unfold connectWebSocket_of in Hws.
        destruct (to_string (get doc "webSocketDebuggerUrl")) as [url|].
        -- do 5 right. exists url. rewrite Hws. reflexivity.
        -- destruct (websocket_available w) eqn:Havail.
           ++ injection Hws as _ <-. auto 6.
           ++ do 5 right. exists "". unfold connectWebSocket.
              rewrite Havail. injection Hws as _ <-. reflexivity.
    + destruct (String.eqb (exn_name e0) "AbortError"); simpl;
        intros [= <-]; eauto 10.
Qed.

Lemma connect_no_endpoint_witness :
  fst (connect (local_world (FetchResponds true 200 (Normal local_chrome_doc)))
               5000)
  = [IoFetch "http://localhost:9222/json/version" 5000;
     IoWebSocket "ws://localhost:9222/devtools/browser/b1" 5000]
  /\ connect (local_world
                (FetchRejects {| exn_name := "AbortError";
                                 exn_message := "This operation was aborted" |}))
             5000
     = ([IoFetch "http://localhost:9222/json/version" 5000],
        Throw (Error "Connection timeout - set LIGHTPANDA_CDP_URL (recommended) or run Chrome with --remote-debugging-port=9222.")).
Proof.
  split.
  - destruct (connect_no_endpoint
                (local_world (FetchResponds true 200 (Normal local_chrome_doc)))
                5000 (conj (or_introl eq_refl) (or_intror eq_refl)))
      as (_ & H & _).
    destruct (H true 200 local_chrome_doc
                "ws://localhost:9222/devtools/browser/b1"
                eq_refl eq_refl eq_refl) as [Ht _].
    exact Ht.
  - destruct (connect_no_endpoint
                (local_world
                   (FetchRejects {| exn_name := "AbortError";
                                    exn_message := "This operation was aborted" |}))
                5000 (conj (or_introl eq_refl) (or_intror eq_refl)))
      as (_ & _ & H & _).
    apply (H _ eq_refl eq_refl).
Defined.

(** *** Redaction *)

(** C9 does not hold of the code: in [Authorization: Bearer s3cr3t] the
    expression [\S+] stops after the scheme word, so [redactSecrets]
    replaces [Bearer] and leaves the credential, and the message that
    [connect] throws carries it. *)
Theorem redactSecrets_keeps_bearer_credential :
  redactSecrets "Authorization: Bearer s3cr3t" = "Authorization: *** s3cr3t"
  /\ snd (connect cloud_world 5000) =
     Throw (Error "Failed to connect to CDP websocket at wss://cloud.example/ws. Verify LIGHTPANDA_CDP_URL and your network access. Handshake refused for wss://cloud.example/ws?token=*** with Authorization: *** s3cr3t").
Proof. split; vm_compute; reflexivity. Qed.

End ConnectFacts.

(** ** The [CDP] class *)

Module ClientFacts.
Import Client.

(** *** The record and its setters *)

Lemma settle_spec (p : nat) (o : Promise) (c : CDP) :
  ws_closed (settle p o c) = ws_closed c
  /\ ws_sent (settle p o c) = ws_sent c
  /\ id (settle p o c) = id c
  /\ callbacks (settle p o c) = callbacks c
  /\ eventHandlers (settle p o c) = eventHandlers c
  /\ timers (settle p o c) = timers c
  /\ next_object (settle p o c) = next_object c
  /\ invoked (settle p o c) = invoked c
  /\ promises (settle p o c) =
     match promises c !! p with
     | Some Pending => <[p := o]> (promises c)
     | _ => promises c
     end.
Proof.
  unfold settle. destruct (promises c !! p) as [[| |]|]; simpl; tauto.
Qed.

Lemma settle_pending (p : nat) (o : Promise) (c : CDP) :
  promises c !! p = Some Pending -> promises (settle p o c) !! p = Some o.
Proof.
  intros H. destruct (settle_spec p o c) as (_ & _ & _ & _ & _ & _ & _ & _ & ->).
  rewrite H. apply lookup_insert_eq.
Qed.

Lemma settle_other (p q : nat) (o : Promise) (c : CDP) :
  p <> q -> promises (settle p o c) !! q = promises c !! q.
Proof.
  intros H. destruct (settle_spec p o c) as (_ & _ & _ & _ & _ & _ & _ & _ & ->).
  destruct (promises c !! p) as [[| |]|]; try reflexivity.
  apply lookup_insert_ne, H.
Qed.

Lemma set_invoked_id (c : CDP) : set_invoked (invoked c) c = c.
Proof. destruct c; reflexivity. Qed.

Lemma wf_new : wf new_CDP.
Proof.
  split; simpl; try lia; intros *; rewrite lookup_empty; discriminate.
Qed.

(** A call completes through its timer [tm], whether or not its entry
    is still there. *)
Lemma wf_complete_timer (k : Z) (cb : Callback) (tm0 : Timer) (o : Promise) (c : CDP) :
  wf c -> timers c !! cb_timer cb = Some tm0 ->
  tm_msgId tm0 = k -> tm_promise tm0 = cb_promise cb ->
  wf (complete k cb o c).
Proof.
  intros [Hid Hkeys Hct Hti Hpend Hth Hph] Htm0 Hk0 Hp0.
  destruct (Hth _ _ Htm0) as [Ht0 _].
  unfold complete.
  set (c1 := set_timers _ _).
  destruct (settle_spec (cb_promise cb) o c1)
    as (_ & _ & Eid & Ecb & _ & Etm & Enext & _ & Epr).
  split; rewrite ?Eid, ?Ecb, ?Etm, ?Enext, ?Epr; subst c1; simpl.
  - exact Hid.
  - intros k' cb' [_ H]%lookup_delete_Some. eauto.
  - intros k' cb' [Hne H]%lookup_delete_Some.
    destruct (Hct k' cb' H) as (tm & Htm & Hk' & Hp').
    exists tm. split; [|auto].
    rewrite lookup_delete_ne; [exact Htm|].
    intros Heq. rewrite <- Heq in Htm. congruence.
  - intros t tm [_ H]%lookup_delete_Some. eauto.
  - intros t tm [Hne H]%lookup_delete_Some.
    specialize (Hpend t tm H). destruct (Hth t tm H) as [Ht _].
    destruct (promises c !! cb_promise cb) as [[| |]|]; try exact Hpend.
    rewrite lookup_insert_ne; [exact Hpend|].
    intros Heq. apply Hne. rewrite Ht0, Ht, Hp0, Heq. reflexivity.
  - intros t tm [_ H]%lookup_delete_Some. eauto.
  - intros p st.
    destruct (promises c !! cb_promise cb) as [[| |]|] eqn:Hp; eauto.
    intros [[<- _]|[_ H]]%lookup_insert_Some; eauto.
Qed.

Lemma wf_complete (k : Z) (cb : Callback) (o : Promise) (c : CDP) :
  wf c -> callbacks c !! k = Some cb -> wf (complete k cb o c).
Proof.
  intros Hwf Hk.
  destruct (wf_cb_timer c Hwf k cb Hk) as (tm & Htm & Hk0 & Hp0).
  apply (wf_complete_timer k cb tm); assumption.
Qed.

(** An entry goes and nothing else: what a reply leaves behind when the
    error for its call cannot be built. *)
Lemma wf_drop_entry (k : Z) (c : CDP) :
  wf c -> wf (set_callbacks (delete k (callbacks c)) c).
Proof.
  intros [Hid Hkeys Hct Hti Hpend Hth Hph]. split; simpl; try assumption.
  - intros k' cb' [_ H]%lookup_delete_Some. eauto.
  - intros k' cb' [_ H]%lookup_delete_Some. eauto.
Qed.

Section WithPlatform.
Variable JSON_parse : string -> option JsValue.
Variable handler_body : nat -> JsValue -> JsValue -> Completion JsError unit.

Abbreviation emit := (emit handler_body).
Abbreviation dispatch := (dispatch handler_body).
Abbreviation on_message := (on_message JSON_parse handler_body).
Abbreviation step := (step JSON_parse handler_body).
Abbreviation run := (run JSON_parse handler_body).
Abbreviation reachable := (reachable JSON_parse handler_body).

(** *** Event dispatch *)

Lemma for_of_handlers (params sessionId : JsValue) (hs : list nat) (c : CDP) :
  for_of hs (fun h => try_catch (call_handler_fn handler_body h params sessionId)
                                (fun _ => ret tt)) c
  = (Normal tt,
     set_invoked (invoked c ++ map (call_of params sessionId) hs)%list c).
Proof.
  revert c. induction hs as [|h hs IH]; intros c; simpl.
  - rewrite app_nil_r, set_invoked_id. reflexivity.
  - unfold bind, try_catch, call_handler_fn at 1.
    assert (Hnext : forall c', c' = set_invoked
               (invoked c ++ [call_of params sessionId h])%list c ->
             for_of hs (fun h0 => try_catch
               (call_handler_fn handler_body h0 params sessionId)
               (fun _ => ret tt)) c'
             = (Normal tt, set_invoked
                  (invoked c ++ call_of params sessionId h
                     :: map (call_of params sessionId) hs)%list c)).
    { intros c' ->. rewrite IH. simpl. rewrite <- app_assoc. reflexivity. }
    destruct (handler_body h params sessionId) as [[]|e]; simpl;
      apply Hnext; reflexivity.
Qed.

Lemma emit_spec (method params sessionId : JsValue) (c : CDP) :
  emit method params sessionId c
  = (Normal tt,
     set_invoked (invoked c ++ map (call_of params sessionId)
                    (default [] (eventHandlers_get method c)))%list c).
Proof.
  unfold Client.emit. destruct (eventHandlers_get method c) as [hs|]; simpl.
  - apply for_of_handlers.
  - rewrite app_nil_r, set_invoked_id. reflexivity.
Qed.

(** *** Every step keeps the invariant *)

Lemma wf_set_invoked (l : list Call) (c : CDP) : wf c -> wf (set_invoked l c).
Proof. intros [? ? ? ? ? ? ?]. split; simpl; assumption. Qed.

Lemma wf_set_ws (b : bool) (l : list Frame) (c : CDP) : wf c -> wf (set_ws b l c).
Proof. intros [? ? ? ? ? ? ?]. split; simpl; assumption. Qed.

Lemma wf_set_eventHandlers (m : gmap string (list nat)) (c : CDP) :
  wf c -> wf (set_eventHandlers m c).
Proof. intros [? ? ? ? ? ? ?]. split; simpl; assumption. Qed.

Lemma callbacks_get_Some (v : JsValue) (c : CDP) (k : Z) (cb : Callback) :
  callbacks_get v c = Some (k, cb) -> v = JNum k /\ callbacks c !! k = Some cb.
Proof.
  destruct v; simpl; try discriminate.
  destruct (callbacks c !! n) eqn:E; [|discriminate].
  intros [= <- <-]. auto.
Qed.

Lemma on_message_parsed (text : string) (msg : JsValue) (c : CDP) :
  JSON_parse text = Some msg -> nullish msg = false ->
  on_message text c = dispatch msg c.
Proof.
  intros Hp Hn. unfold Client.on_message, Client.dispatch, reply_outcome.
  rewrite Hp, Hn.
  destruct (if truthy (get msg "id") then _ else _) as [[k cb]|];
    [|reflexivity].
  destruct (truthy (get msg "error")); [|reflexivity].
  destruct (new_Error _); reflexivity.
Qed.

Lemma wf_dispatch (msg : JsValue) (c : CDP) : wf c -> wf (snd (dispatch msg c)).
Proof.
  intros Hwf. unfold Client.dispatch.
  destruct (if truthy (get msg "id") then _ else _) as [[k cb]|] eqn:E.
  - destruct (reply_outcome msg) as [o|e]; simpl.
    + apply wf_complete; [exact Hwf|].
      destruct (truthy (get msg "id")); [|discriminate].
      apply callbacks_get_Some in E. tauto.
    + apply wf_drop_entry, Hwf.
  - destruct (truthy (get msg "method")); [|exact Hwf].
    rewrite emit_spec. simpl. apply wf_set_invoked, Hwf.
Qed.

Lemma wf_on_message (text : string) (c : CDP) :
  wf c -> wf (snd (on_message text c)).
Proof.
  intros Hwf. destruct (JSON_parse text) as [msg|] eqn:Hp.
  - destruct (nullish msg) eqn:Hn.
    + unfold Client.on_message. rewrite Hp, Hn. exact Hwf.
    + rewrite (on_message_parsed text msg c Hp Hn). apply wf_dispatch, Hwf.
  - unfold Client.on_message. rewrite Hp. exact Hwf.
Qed.

Lemma fire_timer_complete (t : nat) (tm : Timer) (c : CDP) :
  wf c -> timers c !! t = Some tm ->
  fire_timer t c
  = complete (tm_msgId tm) {| cb_promise := tm_promise tm; cb_timer := t |}
      (Rejected (Error ("CDP timeout: " +:+ tm_method tm))) c.
Proof. intros _ H. unfold fire_timer. rewrite H. reflexivity. Qed.

Lemma wf_fire_timer (t : nat) (c : CDP) : wf c -> wf (fire_timer t c).
Proof.
  intros Hwf. destruct (timers c !! t) as [tm|] eqn:E.
  - rewrite (fire_timer_complete t tm c Hwf E).
    apply (wf_complete_timer _ _ tm); [exact Hwf|exact E|reflexivity..].
  - unfold fire_timer. rewrite E. exact Hwf.
Qed.

Lemma wf_send (method : string) (params sessionId : JsValue) (timeout : Z)
  (c : CDP) :
  wf c -> wf (snd (send method params sessionId timeout c)).
Proof.
  intros [Hid Hkeys Hct Hti Hpend Hth Hph].
  unfold send. simpl. split; simpl.
  - lia.
  - intros k cb [[<- _]|[_ H]]%lookup_insert_Some; [lia|].
    specialize (Hkeys k cb H). lia.
  - intros k cb [[<- <-]|[Hne H]]%lookup_insert_Some; simpl.
    + eexists. rewrite lookup_insert_eq. split; [reflexivity|]. auto.
    + destruct (Hct k cb H) as (tm & Htm & Hk & Hp).
      exists tm. split; [|auto].
      rewrite lookup_insert_ne; [exact Htm|].
      destruct (Hth _ _ Htm) as [_ Hlt]. lia.
  - intros t tm [[<- <-]|[Hne H]]%lookup_insert_Some; simpl.
    + lia.
    + specialize (Hti t tm H). lia.
  - intros t tm [[<- <-]|[Hne H]]%lookup_insert_Some; simpl.
    + apply lookup_insert_eq.
    + rewrite lookup_insert_ne; [eauto|].
      specialize (Hpend t tm H). specialize (Hph _ _ Hpend). lia.
  - intros t tm [[<- <-]|[Hne H]]%lookup_insert_Some; simpl.
    + split; [reflexivity|lia].
    + destruct (Hth t tm H). split; [assumption|lia].
  - intros p st [[<- _]|[_ H]]%lookup_insert_Some; [lia|].
    specialize (Hph p st H). lia.
Qed.

Lemma wf_step (c : CDP) (ev : Event) : wf c -> wf (step c ev).
Proof.
  intros Hwf. destruct ev; simpl.
  - apply wf_send, Hwf.
  - apply wf_on_message, Hwf.
  - apply wf_fire_timer, Hwf.
  - apply wf_set_ws, Hwf.
  - apply wf_set_eventHandlers, Hwf.
  - unfold off. destruct (eventHandlers c !! method); [|exact Hwf].
    destruct (filter _ _); apply wf_set_eventHandlers, Hwf.
Qed.

Lemma wf_run (evs : list Event) (c : CDP) : wf c -> wf (run evs c).
Proof.
  revert c. induction evs as [|ev evs IH]; intros c Hwf; simpl.
  - exact Hwf.
  - apply IH, wf_step, Hwf.
Qed.

Lemma reachable_wf (c : CDP) : reachable c -> wf c.
Proof. intros [evs ->]. apply wf_run, wf_new. Qed.

Lemma reachable_step (c : CDP) (ev : Event) :
  reachable c -> reachable (step c ev).
Proof.
  intros [evs ->]. exists (evs ++ [ev])%list.
  unfold Client.run. rewrite fold_left_app. reflexivity.
Qed.

(** *** Frames that do not parse *)

(** C1: on a frame that does not parse, the listener completes by
    throwing the [SyntaxError] of [JSON.parse] to the socket that called
    it: there is no [try] around the parse, unlike the handler calls of
    [emit].  The client itself is left as it was. *)
Theorem on_message_malformed (text : string) (c : CDP) :
  JSON_parse text = None ->
  on_message text c = (Throw SyntaxError, c).
Proof. intros H. unfold Client.on_message. rewrite H. reflexivity. Qed.

(** *** Events *)

Lemma dispatch_event (c : CDP) (method : string) (msg : JsValue) :
  event_for c method msg ->
  dispatch msg c
  = (Normal tt,
     delivered (js_or (get msg "params") (JObj []))
               (js_or (get msg "sessionId") JNull)
               (default [] (eventHandlers c !! method)) c).
Proof.
  intros (Hm & Hne & Hid). unfold Client.dispatch.
  destruct (truthy (get msg "id")).
  - rewrite (Hid eq_refl), Hm. simpl truthy. rewrite Hne, emit_spec. reflexivity.
  - rewrite Hm. simpl truthy. rewrite Hne, emit_spec. reflexivity.
Qed.

(** C7: whatever the handlers registered for the method of an event do,
    throwing included, [emit] and the listener complete normally, every
    handler of the method has been called once with the parameters and
    the session of the event, and nothing else of the client has changed.
    In particular, when one handler throws, every handler of the method
    is among the calls made; and the next event frame is delivered to its
    handlers in the same way. *)
Theorem emit_swallows_handler_errors
  (c : CDP) (method : string) (hs : list nat) (text : string) (msg : JsValue) :
  eventHandlers c !! method = Some hs ->
  JSON_parse text = Some msg ->
  event_for c method msg ->
  let params := js_or (get msg "params") (JObj []) in
  let sessionId := js_or (get msg "sessionId") JNull in
  emit (JStr method) params sessionId c
    = (Normal tt, delivered params sessionId hs c)
  /\ on_message text c = (Normal tt, delivered params sessionId hs c)
  /\ (forall h e,
        In h hs -> handler_body h params sessionId = Throw e ->
        forall h', In h' hs ->
          In (call_of params sessionId h')
             (invoked (snd (on_message text c))))
  /\ (forall method' text' msg',
        JSON_parse text' = Some msg' ->
        event_for c method' msg' ->
        on_message text' (snd (on_message text c))
        = (Normal tt,
           delivered (js_or (get msg' "params") (JObj []))
                     (js_or (get msg' "sessionId") JNull)
                     (default [] (eventHandlers c !! method'))
                     (delivered params sessionId hs c))).
Proof.
  intros Hhs Hparse Hev params sessionId.
  assert (Hnn : forall m x, event_for c m x -> nullish x = false).
  { intros m x (Hm & _). destruct x; try reflexivity; discriminate Hm. }
  assert (Hfirst : on_message text c = (Normal tt, delivered params sessionId hs c)).
  { rewrite (on_message_parsed text msg c Hparse (Hnn _ _ Hev)).
    rewrite (dispatch_event c method msg Hev), Hhs. reflexivity. }
  split; [|split; [|split]].
  - rewrite emit_spec. simpl. rewrite Hhs. reflexivity.
  - exact Hfirst.
  - intros h e _ _ h' Hin. rewrite Hfirst. simpl.
    apply in_or_app. right. apply in_map, Hin.
  - intros method' text' msg' Hparse' Hev'. rewrite Hfirst. simpl snd.
    rewrite (on_message_parsed text' msg' _ Hparse' (Hnn _ _ Hev')).
    apply (dispatch_event (delivered params sessionId hs c) method' msg').
    exact Hev'.
Qed.

(** *** Replies *)

Lemma complete_spec_timer (k : Z) (cb : Callback) (tm : Timer) (o : Promise)
  (c : CDP) :
  wf c -> timers c !! cb_timer cb = Some tm -> tm_promise tm = cb_promise cb ->
  let c' := complete k cb o c in
  promises c' !! cb_promise cb = Some o
  /\ timers c' !! cb_timer cb = None
  /\ callbacks c' !! k = None
  /\ (forall k', k' <> k -> callbacks c' !! k' = callbacks c !! k')
  /\ (forall p, p <> cb_promise cb -> promises c' !! p = promises c !! p)
  /\ (forall t, t <> cb_timer cb -> timers c' !! t = timers c !! t)
  /\ id c' = id c /\ ws_sent c' = ws_sent c /\ ws_closed c' = ws_closed c
  /\ eventHandlers c' = eventHandlers c /\ invoked c' = invoked c.
Proof.
  intros Hwf Htm Hp c'. subst c'. unfold complete.
  set (c1 := set_timers _ _).
  assert (Hpend : promises c1 !! cb_promise cb = Some Pending).
  { subst c1. simpl. rewrite <- Hp. apply (wf_timer_pending c Hwf _ _ Htm). }
  destruct (settle_spec (cb_promise cb) o c1)
    as (Ews & Esent & Eid & Ecb & Eh & Etm & _ & Einv & _).
  rewrite Ews, Esent, Eid, Ecb, Eh, Etm, Einv.
  split; [apply settle_pending, Hpend|].
  subst c1; simpl.
  split; [apply lookup_delete_eq|]. split; [apply lookup_delete_eq|].
  split; [intros k' Hne; apply lookup_delete_ne; congruence|].
  split; [intros p Hne; rewrite settle_other by congruence; reflexivity|].
  split; [intros t Hne; apply lookup_delete_ne; congruence|].
  repeat split.
Qed.

Lemma complete_spec (k : Z) (cb : Callback) (o : Promise) (c : CDP) :
  wf c -> callbacks c !! k = Some cb ->
  let c' := complete k cb o c in
  promises c' !! cb_promise cb = Some o
  /\ timers c' !! cb_timer cb = None
  /\ callbacks c' !! k = None
  /\ (forall k', k' <> k -> callbacks c' !! k' = callbacks c !! k')
  /\ (forall p, p <> cb_promise cb -> promises c' !! p = promises c !! p)
  /\ (forall t, t <> cb_timer cb -> timers c' !! t = timers c !! t)
  /\ id c' = id c /\ ws_sent c' = ws_sent c /\ ws_closed c' = ws_closed c
  /\ eventHandlers c' = eventHandlers c /\ invoked c' = invoked c.
Proof.
  intros Hwf Hk.
  destruct (wf_cb_timer c Hwf k cb Hk) as (tm & Htm & _ & Hp).
  apply (complete_spec_timer k cb tm o c Hwf Htm Hp).
Qed.

(** What a timer does when it fires, whether or not the entry of its call
    is still there. *)
Lemma fire_timer_spec (t : nat) (tm : Timer) (c : CDP) :
  wf c -> timers c !! t = Some tm ->
  let c' := fire_timer t c in
  promises c' !! tm_promise tm
  = Some (Rejected (Error ("CDP timeout: " +:+ tm_method tm)))
  /\ timers c' !! t = None
  /\ callbacks c' !! tm_msgId tm = None
  /\ (forall k', k' <> tm_msgId tm -> callbacks c' !! k' = callbacks c !! k')
  /\ (forall p, p <> tm_promise tm -> promises c' !! p = promises c !! p)
  /\ (forall t', t' <> t -> timers c' !! t' = timers c !! t')
  /\ id c' = id c /\ ws_sent c' = ws_sent c /\ ws_closed c' = ws_closed c
  /\ eventHandlers c' = eventHandlers c /\ invoked c' = invoked c.
Proof.
  intros Hwf Ht c'. subst c'. rewrite (fire_timer_complete t tm c Hwf Ht).
  apply (complete_spec_timer (tm_msgId tm)
           {| cb_promise := tm_promise tm; cb_timer := t |} tm _ c Hwf Ht eq_refl).
Qed.

Lemma dispatch_reply (c : CDP) (msg : JsValue) (k : Z) (cb : Callback) :
  wf c -> get msg "id" = JNum k -> callbacks c !! k = Some cb ->
  dispatch msg c
  = match reply_outcome msg with
    | Normal o => (Normal tt, complete k cb o c)
    | Throw e => (Throw e, set_callbacks (delete k (callbacks c)) c)
    end.
Proof.
  intros Hwf Hid Hk. unfold Client.dispatch. rewrite Hid. simpl.
  assert (Hnz : Z.eqb k 0 = false).
  { apply Z.eqb_neq. pose proof (wf_keys c Hwf k cb Hk). lia. }
  rewrite Hnz, Hk. reflexivity.
Qed.

(** The outcome of a reply, case by case. *)
Lemma reply_outcome_result (msg : JsValue) :
  truthy (get msg "error") = false ->
  reply_outcome msg = Normal (Fulfilled (get msg "result")).
Proof. intros H. unfold reply_outcome. rewrite H. reflexivity. Qed.


Lemma dispatch_dropped (c : CDP) (msg : JsValue) :
  (truthy (get msg "id") = true -> callbacks_get (get msg "id") c = None) ->
  truthy (get msg "method") = false ->
  dispatch msg c = (Normal tt, c).
Proof.
  intros Hid Hm. unfold Client.dispatch.
  destruct (truthy (get msg "id")).
  - rewrite (Hid eq_refl), Hm. reflexivity.
  - rewrite Hm. reflexivity.
Qed.


(** *** [send], and what a step leaves alone *)

Lemma send_spec (method : string) (params sessionId : JsValue) (timeout : Z)
  (c : CDP) :
  let p := fst (send method params sessionId timeout c) in
  let c' := snd (send method params sessionId timeout c) in
  p = next_object c
  /\ id c' = id c + 1
  /\ promises c' = <[p := Pending]> (promises c)
  /\ timers c' = <[S p := {| tm_msgId := id c + 1; tm_method := method;
                             tm_promise := p; tm_delay := timeout |}]> (timers c)
  /\ callbacks c' = <[id c + 1 := {| cb_promise := p; cb_timer := S p |}]>
                      (callbacks c)
  /\ ws_sent c' = (ws_sent c ++
                   [{| f_id := id c + 1; f_method := method;
                       f_params := or_default params (JObj []);
                       f_sessionId := if truthy sessionId then Some sessionId
                                      else None |}])%list
  /\ ws_closed c' = ws_closed c
  /\ eventHandlers c' = eventHandlers c.
Proof.
  unfold send. simpl. repeat split.
  destruct sessionId; reflexivity.
Qed.

Lemma dispatch_frame (msg : JsValue) (c : CDP) :
  id (snd (dispatch msg c)) = id c /\ ws_sent (snd (dispatch msg c)) = ws_sent c.
Proof.
  unfold Client.dispatch.
  destruct (if truthy (get msg "id") then _ else _) as [[k cb]|].
  - destruct (reply_outcome msg) as [o|e]; simpl; [|split; reflexivity].
    unfold complete.
    match goal with |- context [settle ?p ?o ?c1] =>
      destruct (settle_spec p o c1) as (_ & -> & -> & _)
    end. split; reflexivity.
  - destruct (truthy (get msg "method")); [|split; reflexivity].
    rewrite emit_spec. split; reflexivity.
Qed.

Lemma on_message_frame (text : string) (c : CDP) :
  id (snd (on_message text c)) = id c
  /\ ws_sent (snd (on_message text c)) = ws_sent c.
Proof.
  destruct (JSON_parse text) as [msg|] eqn:Hp.
  - destruct (nullish msg) eqn:Hn.
    + unfold Client.on_message. rewrite Hp, Hn. split; reflexivity.
    + rewrite (on_message_parsed text msg c Hp Hn). apply dispatch_frame.
  - unfold Client.on_message. rewrite Hp. split; reflexivity.
Qed.

Lemma fire_timer_frame (t : nat) (c : CDP) :
  id (fire_timer t c) = id c /\ ws_sent (fire_timer t c) = ws_sent c.
Proof.
  unfold fire_timer. destruct (timers c !! t) as [tm|]; [|split; reflexivity].
  match goal with |- context [settle ?p ?o ?c1] =>
    destruct (settle_spec p o c1) as (_ & -> & -> & _)
  end. split; reflexivity.
Qed.

Lemma off_frame (method : string) (h : nat) (c : CDP) :
  id (off method h c) = id c /\ ws_sent (off method h c) = ws_sent c.
Proof.
  unfold off. destruct (eventHandlers c !! method); [|split; reflexivity].
  destruct (filter _ _); split; reflexivity.
Qed.

(** The ids [start + 1, ..., start + n]. *)
Lemma ids_shift (start : Z) (n : nat) :
  map (fun i => start + 1 + Z.of_nat i) (seq 1 n)
  = map (fun i => start + Z.of_nat i) (seq 2 n).
Proof.
  rewrite <- (seq_shift n 1), map_map. apply map_ext. intros i. lia.
Qed.

Lemma run_ids (evs : list Event) (c : CDP) :
  id (run evs c) = id c + Z.of_nat (count_sends evs)
  /\ map f_id (ws_sent (run evs c))
     = (map f_id (ws_sent c)
        ++ map (fun i => id c + Z.of_nat i) (seq 1 (count_sends evs)))%list.
Proof.
  revert c. induction evs as [|ev evs IH]; intros c.
  - simpl. rewrite app_nil_r. split; [lia|reflexivity].
  - simpl Client.run. destruct (IH (step c ev)) as [IHid IHsent].
    change (fold_left step evs (step c ev)) with (run evs (step c ev)).
    rewrite IHid, IHsent.
    destruct ev as [method params sessionId timeout|text|t| |method h|method h].
    + unfold Client.step.
      destruct (send_spec method params sessionId timeout c)
        as (_ & -> & _ & _ & _ & -> & _).
      simpl count_sends. rewrite map_app, <- app_assoc. simpl map at 2.
      rewrite ids_shift. split; [lia|]. simpl. rewrite Z.add_comm at 1.
      replace (1 + id c) with (id c + Z.of_nat 1) by lia. reflexivity.
    + unfold Client.step. destruct (on_message_frame text c) as [-> ->].
      simpl count_sends. split; [lia|reflexivity].
    + unfold Client.step. destruct (fire_timer_frame t c) as [-> ->].
      simpl count_sends. split; [lia|reflexivity].
    + simpl. split; [lia|reflexivity].
    + simpl. split; [lia|reflexivity].
    + unfold Client.step. destruct (off_frame method h c) as [-> ->].
      simpl count_sends. split; [lia|reflexivity].
Qed.

(** *** Timeouts *)

Lemma step_id (c : CDP) (ev : Event) : id c <= id (step c ev).
Proof.
  destruct ev as [method params sessionId timeout|text|t| |method h|method h];
    unfold Client.step.
  - destruct (send_spec method params sessionId timeout c) as (_ & -> & _). lia.
  - destruct (on_message_frame text c) as [-> _]. lia.
  - destruct (fire_timer_frame t c) as [-> _]. lia.
  - simpl. lia.
  - simpl. lia.
  - destruct (off_frame method h c) as [-> _]. lia.
Qed.

Lemma complete_callbacks (k : Z) (cb : Callback) (o : Promise) (c : CDP) :
  callbacks (complete k cb o c) = delete k (callbacks c).
Proof.
  unfold complete.
  match goal with |- context [settle ?p ?o' ?c1] =>
    destruct (settle_spec p o' c1) as (_ & _ & _ & -> & _)
  end. reflexivity.
Qed.

Lemma complete_settled (k : Z) (cb : Callback) (o o' : Promise) (c : CDP) (p : nat) :
  promises c !! p = Some o' -> o' <> Pending ->
  promises (complete k cb o c) !! p = Some o'.
Proof.
  intros Hp Hne. unfold complete.
  match goal with |- context [settle ?q ?x ?c1] =>
    destruct (settle_spec q x c1) as (_ & _ & _ & _ & _ & _ & _ & _ & ->)
  end. simpl.
  destruct (promises c !! cb_promise cb) as [[| |]|] eqn:E; try exact Hp.
  rewrite lookup_insert_ne; [exact Hp|]. intros <-. congruence.
Qed.

(** An entry that is gone stays gone, and a settled promise stays as it
    settled. *)
Lemma step_settled (c : CDP) (ev : Event) (k : Z) (p : nat) (o : Promise) :
  wf c ->
  k <= id c -> callbacks c !! k = None ->
  promises c !! p = Some o -> o <> Pending ->
  callbacks (step c ev) !! k = None /\ promises (step c ev) !! p = Some o.
Proof.
  intros Hwf Hk Hgone Hp Hne.
  destruct ev as [method params sessionId timeout|text|t| |method h|method h];
    unfold Client.step.
  - destruct (send_spec method params sessionId timeout c)
      as (Hq & _ & -> & _ & -> & _).
    rewrite Hq. split.
    + rewrite lookup_insert_ne by lia. exact Hgone.
    + rewrite lookup_insert_ne; [exact Hp|].
      pose proof (wf_promise_handle c Hwf p o Hp). lia.
  - destruct (JSON_parse text) as [msg|] eqn:Hparse.
    + destruct (nullish msg) eqn:Hn.
      * unfold Client.on_message. rewrite Hparse, Hn. auto.
      * rewrite (on_message_parsed text msg c Hparse Hn). unfold Client.dispatch.
        destruct (if truthy (get msg "id") then _ else _) as [[k' cb]|].
        -- destruct (reply_outcome msg) as [o'|e]; simpl.
           ++ rewrite complete_callbacks. split.
              ** apply lookup_delete_None. auto.
              ** apply complete_settled; assumption.
           ++ split; [|exact Hp]. apply lookup_delete_None. auto.
        -- destruct (truthy (get msg "method")); [|auto].
           rewrite emit_spec. auto.
    + unfold Client.on_message. rewrite Hparse. auto.
  - destruct (timers c !! t) as [tm|] eqn:E.
    + rewrite (fire_timer_complete t tm c Hwf E). rewrite complete_callbacks.
      split.
      * apply lookup_delete_None. auto.
      * apply complete_settled; assumption.
    + unfold fire_timer. rewrite E. auto.
  - auto.
  - auto.
  - unfold off. destruct (eventHandlers c !! method); [|auto].
    destruct (filter _ _); auto.
Qed.

Lemma run_settled (evs : list Event) (c : CDP) (k : Z) (p : nat) (o : Promise) :
  wf c ->
  k <= id c -> callbacks c !! k = None ->
  promises c !! p = Some o -> o <> Pending ->
  callbacks (run evs c) !! k = None /\ promises (run evs c) !! p = Some o.
Proof.
  revert c. induction evs as [|ev evs IH]; intros c Hwf Hk Hgone Hp Hne.
  - auto.
  - destruct (step_settled c ev k p o Hwf Hk Hgone Hp Hne) as [Hgone' Hp'].
    apply (IH (step c ev)); auto using wf_step.
    pose proof (step_id c ev). lia.
Qed.

(** C4: [send] arms a timer for its call.  While that timer is armed no
    reply has settled the call; when it fires, the promise of the
    call is rejected with the error [CDP timeout: method], the entry of
    the call is removed from [callbacks] and the timer is spent.  From
    then on, whatever else happens, the promise stays rejected with that
    error and a reply that arrives with the id of the call is dropped:
    the listener returns and the client is unchanged. *)
Theorem send_times_out
  (c0 : CDP) (method : string) (params sessionId : JsValue) (timeout : Z) :
  reachable c0 ->
  let p := fst (send method params sessionId timeout c0) in
  let armed := {| tm_msgId := id c0 + 1; tm_method := method;
                  tm_promise := p; tm_delay := timeout |} in
  timers (snd (send method params sessionId timeout c0)) !! S p = Some armed
  /\ promises (snd (send method params sessionId timeout c0)) !! p = Some Pending
  /\ forall evs t,
       let c := run evs (snd (send method params sessionId timeout c0)) in
       timers c !! t = Some armed ->
       promises (fire_timer t c) !! p
         = Some (Rejected (Error ("CDP timeout: " +:+ method)))
       /\ callbacks (fire_timer t c) !! (id c0 + 1) = None
       /\ timers (fire_timer t c) !! t = None
       /\ forall later,
            let c' := run later (fire_timer t c) in
            promises c' !! p = Some (Rejected (Error ("CDP timeout: " +:+ method)))
            /\ callbacks c' !! (id c0 + 1) = None
            /\ forall text msg,
                 JSON_parse text = Some msg ->
                 get msg "id" = JNum (id c0 + 1) ->
                 reply_shaped msg ->
                 on_message text c' = (Normal tt, c').
Proof.
  intros Hreach p armed.
  destruct (send_spec method params sessionId timeout c0)
    as (Hp & Hid0 & Hpr & Htm & _).
  fold p in Hp, Hpr, Htm.
  split; [rewrite Htm; apply lookup_insert_eq|].
  split; [rewrite Hpr; apply lookup_insert_eq|].
  intros evs t c Harmed.
  assert (Hwf : wf c).
  { apply wf_run, wf_send, reachable_wf, Hreach. }
  assert (Hidc : id c0 + 1 <= id c).
  { destruct (run_ids evs (snd (send method params sessionId timeout c0)))
      as [Hrun _]. fold c in Hrun. lia. }
  pose proof (wf_fire_timer t c Hwf) as Hwf'.
  destruct (fire_timer_spec t armed c Hwf Harmed)
    as (Hq & Ht & Hc & _ & _ & _ & Hidf & _).
  cbn [tm_promise tm_method tm_msgId armed] in Hq, Hc.
  set (c1 := fire_timer t c) in *.
  split; [exact Hq|]. split; [exact Hc|]. split; [exact Ht|].
  intros later c'.
  destruct (run_settled later c1 (id c0 + 1) p _ Hwf' ltac:(lia) Hc Hq
              ltac:(discriminate)) as [Hgone Hrej].
  fold c' in Hgone, Hrej.
  split; [exact Hrej|]. split; [exact Hgone|].
  intros text msg Hparse Hid [Hnn Hm].
  rewrite (on_message_parsed text msg c' Hparse Hnn).
  apply dispatch_dropped; [|exact Hm].
  intros _. rewrite Hid. simpl. rewrite Hgone. reflexivity.
Qed.

(** *** Identifiers *)

(** C6: along any history of a client the ids given to its [send] calls
    are 1, 2, 3, ... in the order of the calls, so each is above zero and
    above every id given before and none is given twice; [id] is the
    number of calls so far, every pending entry has a key between 1 and
    [id], and the id of the next call is the key of no pending entry, so
    a [send] never takes the place of a pending one. *)
Theorem send_ids_fresh (evs : list Event) :
  let c := run evs new_CDP in
  map f_id (ws_sent c) = map Z.of_nat (seq 1 (count_sends evs))
  /\ NoDup (map f_id (ws_sent c))
  /\ id c = Z.of_nat (count_sends evs)
  /\ (forall k cb, callbacks c !! k = Some cb -> 0 < k <= id c)
  /\ callbacks c !! (id c + 1) = None
  /\ (forall method params sessionId timeout,
        let c' := snd (send method params sessionId timeout c) in
        id c' = id c + 1
        /\ (exists cb, callbacks c' !! (id c + 1) = Some cb)
        /\ (forall k, k <> id c + 1 -> callbacks c' !! k = callbacks c !! k)).
Proof.
  intros c. destruct (run_ids evs new_CDP) as [Hid Hsent].
  fold c in Hid, Hsent. simpl in Hid, Hsent.
  assert (Hwf : wf c) by apply wf_run, wf_new.
  assert (Hids : map f_id (ws_sent c) = map Z.of_nat (seq 1 (count_sends evs))).
  { rewrite Hsent. apply map_ext. intros i. lia. }
  split; [exact Hids|]. split.
  { rewrite Hids. apply NoDup_fmap_2; [intros x y; lia|apply NoDup_seq]. }
  split; [lia|]. split; [apply (wf_keys c Hwf)|]. split.
  { destruct (callbacks c !! (id c + 1)) as [cb|] eqn:E; [|reflexivity].
    pose proof (wf_keys c Hwf _ _ E). lia. }
  intros method params sessionId timeout c'.
  destruct (send_spec method params sessionId timeout c)
    as (_ & Hid' & _ & _ & Hcb & _).
  fold c' in Hid', Hcb. rewrite Hcb. split; [exact Hid'|]. split.
  - eexists. apply lookup_insert_eq.
  - intros k Hne. apply lookup_insert_ne. congruence.
Qed.

(** *** Closing *)

(** C2, amended: [close] closes the socket and settles nothing.  A call
    that is pending when [close] is invoked is still pending afterwards,
    with its entry in [callbacks] and its timer armed; it is rejected when
    that timer fires, with the timeout error [CDP timeout: method]. *)
Theorem close_leaves_pending_calls (c : CDP) (k : Z) (cb : Callback) :
  reachable c ->
  callbacks c !! k = Some cb ->
  ws_closed (close c) = true
  /\ callbacks (close c) !! k = Some cb
  /\ promises (close c) !! cb_promise cb = Some Pending
  /\ exists tm,
       timers (close c) !! cb_timer cb = Some tm
       /\ tm_msgId tm = k
       /\ promises (fire_timer (cb_timer cb) (close c)) !! cb_promise cb
          = Some (Rejected (Error ("CDP timeout: " +:+ tm_method tm)))
       /\ callbacks (fire_timer (cb_timer cb) (close c)) !! k = None.
Proof.
  intros Hreach Hk. pose proof (reachable_wf c Hreach) as Hwf.
  destruct (wf_cb_timer c Hwf k cb Hk) as (tm & Htm & Hmid & Hp).
  split; [reflexivity|]. split; [exact Hk|]. split.
  { simpl. rewrite <- Hp. apply (wf_timer_pending c Hwf _ _ Htm). }
  exists tm. split; [exact Htm|]. split; [exact Hmid|].
  assert (Hwf' : wf (close c)) by apply wf_set_ws, Hwf.
  assert (Htm' : timers (close c) !! cb_timer cb = Some tm) by exact Htm.
  destruct (fire_timer_spec _ tm (close c) Hwf' Htm') as (Hq & _ & Hc & _).
  rewrite <- Hp, <- Hmid. split; assumption.
Qed.

(** *** [evaluate] *)





End WithPlatform.

(** *** The properties on the sample platform *)

Lemma one_pending_reachable : reachable sample_parse sample_handler one_pending.
Proof. exists [ESend "Browser.getVersion" (JObj []) JNull 10000]. reflexivity. Qed.

Lemma on_message_malformed_witness :
  on_message sample_parse sample_handler malformed_text one_pending
  = (Throw SyntaxError, one_pending).
Proof.
  apply (on_message_malformed sample_parse sample_handler malformed_text one_pending).
  reflexivity.
Defined.

Lemma emit_swallows_handler_errors_witness :
  sample_handler 1 (JObj [("timestamp", JNum 7)]) JNull = Throw (Error "boom")
  /\ on_message sample_parse sample_handler event_text two_handlers
     = (Normal tt,
        delivered (JObj [("timestamp", JNum 7)]) JNull [1%nat; 2%nat] two_handlers).
Proof.
  split; [reflexivity|].
  destruct (emit_swallows_handler_errors sample_parse sample_handler two_handlers
              "Page.loadEventFired" [1%nat; 2%nat] event_text event_msg)
    as (_ & H & _).
  - reflexivity.
  - reflexivity.
  - split; [reflexivity|]. split; [reflexivity|]. intros H. discriminate H.
  - exact H.
Defined.



Lemma send_times_out_witness :
  promises (fire_timer 1 one_pending) !! 0%nat
  = Some (Rejected (Error "CDP timeout: Browser.getVersion"))
  /\ on_message sample_parse sample_handler reply_text (fire_timer 1 one_pending)
     = (Normal tt, fire_timer 1 one_pending).
Proof.
  destruct (send_times_out sample_parse sample_handler new_CDP
              "Browser.getVersion" (JObj []) JNull 10000) as (_ & _ & H).
  - exists []. reflexivity.
  - destruct (H [] 1%nat) as (Hp & _ & _ & Hlater).
    + reflexivity.
    + split; [exact Hp|].
      destruct (Hlater []) as (_ & _ & Hlate).
      apply (Hlate reply_text reply_msg).
      * reflexivity.
      * reflexivity.
      * split; reflexivity.
Defined.

Example send_ids_three :
  map f_id (ws_sent (run sample_parse sample_handler
                       [ESend "Target.getTargets" (JObj []) JNull 10000;
                        EMessage reply_text;
                        ESend "Page.enable" (JObj []) (JStr "S1") 10000;
                        ETimer 3;
                        ESend "Page.enable" (JObj []) (JStr "S1") 10000]
                       new_CDP))
  = [1; 2; 3].
Proof. vm_compute. reflexivity. Qed.

(** C2, as stated, fails: after [send] and [close] the call is still
    pending, so it is not true that [close] rejects every pending call. *)
Lemma close_rejects_no_pending_call :
  callbacks (close one_pending) !! 1 = Some {| cb_promise := 0; cb_timer := 1 |}
  /\ promises (close one_pending) !! 0%nat = Some Pending
  /\ ~ (forall (c : CDP) (k : Z) (cb : Callback),
          reachable sample_parse sample_handler c ->
          callbacks c !! k = Some cb ->
          exists e, promises (close c) !! cb_promise cb = Some (Rejected e)).
Proof.
  split; [reflexivity|]. split; [reflexivity|].
  intros H.
  destruct (H one_pending 1 {| cb_promise := 0; cb_timer := 1 |}
              one_pending_reachable eq_refl) as [e He].
  vm_compute in He. discriminate He.
Qed.

Lemma close_leaves_pending_calls_witness :
  promises (close one_pending) !! 0%nat = Some Pending
  /\ promises (fire_timer 1 (close one_pending)) !! 0%nat
     = Some (Rejected (Error "CDP timeout: Browser.getVersion")).
Proof.
  destruct (close_leaves_pending_calls sample_parse sample_handler one_pending 1
              {| cb_promise := 0; cb_timer := 1 |} one_pending_reachable eq_refl)
    as (_ & _ & Hp & tm & Htm & _ & Hfire & _).
  split; [exact Hp|].
  assert (Hm : tm_method tm = "Browser.getVersion").
  { vm_compute in Htm. injection Htm as <-. reflexivity. }
  rewrite Hm in Hfire. exact Hfire.
Defined.



End ClientFacts.

(** ** Texts and [redactSecrets], further *)

Module TextFacts.
Import Text.

Lemma app_cons (c : ascii) (s x : string) : String c s +:+ x = String c (s +:+ x).
Proof. reflexivity. Qed.

Lemma app_nil (x : string) : "" +:+ x = x.
Proof. reflexivity. Qed.

Ltac sapp := rewrite ?app_cons, ?app_nil.

Lemma append_nil_r (s : string) : s +:+ "" = s.
Proof. induction s as [|c s IH]; sapp; [reflexivity|]. rewrite IH. reflexivity. Qed.

Lemma append_assoc (a b c : string) : (a +:+ b) +:+ c = a +:+ (b +:+ c).
Proof. induction a as [|x a IH]; sapp; [reflexivity|]. rewrite IH. reflexivity. Qed.

Lemma rev_acc_spec (s acc : string) : rev_acc s acc = rev s +:+ acc.
Proof.
  unfold rev. revert acc. induction s as [|c s IH]; intros acc; simpl.
  - reflexivity.
  - rewrite (IH (String c acc)), (IH (String c "")), append_assoc. reflexivity.
Qed.

Lemma rev_cons (c : ascii) (s : string) : rev (String c s) = rev s +:+ String c "".
Proof. unfold rev at 1. simpl. apply rev_acc_spec. Qed.

Lemma rev_app (a b : string) : rev (a +:+ b) = rev b +:+ rev a.
Proof.
  induction a as [|c a IH]; sapp.
  - change (rev "") with "". rewrite append_nil_r. reflexivity.
  - rewrite !rev_cons, IH, append_assoc. reflexivity.
Qed.

Lemma rev_involutive (s : string) : rev (rev s) = s.
Proof.
  induction s as [|c s IH]; [reflexivity|].
  rewrite rev_cons, rev_app, IH. reflexivity.
Qed.

Lemma strip_one_trailing_slash (p : string) : strip_trailing_slash (p +:+ "/") = p.
Proof.
  unfold strip_trailing_slash. rewrite rev_app.
  change (rev "/") with "/". sapp. apply rev_involutive.
Qed.

Lemma span_all (f : ascii -> bool) (s : string) :
  all_chars f s = true -> span f s = (s, "").
Proof.
  induction s as [|c s IH]; simpl; [reflexivity|].
  intros [Hc Hs]%andb_prop. rewrite Hc, (IH Hs). reflexivity.
Qed.

Lemma trim_blank (s : string) : all_chars is_space s = true -> trim s = "".
Proof.
  intros H. unfold trim, trimStart. rewrite (span_all _ _ H). reflexivity.
Qed.

Lemma span_value (f : ascii -> bool) (v rest : string) :
  all_chars f v = true ->
  match rest with EmptyString => True | String c _ => f c = false end ->
  span f (v +:+ rest) = (v, rest).
Proof.
  intros Hv Hrest. induction v as [|c v IH]; sapp.
  - destruct rest as [|d r]; [reflexivity|]. simpl. rewrite Hrest. reflexivity.
  - simpl in Hv. apply andb_prop in Hv as [Hc Hv]. simpl.
    rewrite Hc, (IH Hv). reflexivity.
Qed.

Lemma prefix_ci_split (p s g r : string) :
  prefix_ci p s = Some (g, r) -> s = g +:+ r.
Proof.
  revert s g r. induction p as [|a p IH]; intros s g r; simpl.
  - intros [= <- <-]. reflexivity.
  - destruct s as [|b s]; [discriminate|].
    destruct (ci_eqb a b); [|discriminate].
    destruct (prefix_ci p s) as [[g' r']|] eqn:E; [|discriminate].
    intros [= <- <-]. sapp. rewrite <- (IH _ _ _ E). reflexivity.
Qed.

Lemma prefix_ci_length (p s g r : string) :
  prefix_ci p s = Some (g, r) -> String.length g = String.length p.
Proof.
  revert s g r. induction p as [|a p IH]; intros s g r; simpl.
  - intros [= <- <-]. reflexivity.
  - destruct s as [|b s]; [discriminate|].
    destruct (ci_eqb a b); [|discriminate].
    destruct (prefix_ci p s) as [[g' r']|] eqn:E; [|discriminate].
    intros [= <- <-]. simpl. rewrite (IH _ _ _ E). reflexivity.
Qed.

Lemma prefix_ci_app (p g x : string) :
  prefix_ci p g = Some (g, "") -> prefix_ci p (g +:+ x) = Some (g, x).
Proof.
  revert g. induction p as [|a p IH]; intros g; simpl.
  - intros [= <-]. reflexivity.
  - destruct g as [|b g]; [discriminate|]. sapp.
    destruct (ci_eqb a b); [|discriminate].
    destruct (prefix_ci p g) as [[g' r']|] eqn:E; [|discriminate].
    intros [= <- ->]. rewrite (IH _ E). reflexivity.
Qed.

Lemma startsWith_app (p x : string) : startsWith (p +:+ x) p = true.
Proof.
  induction p as [|a p IH]; sapp.
  - destruct x; reflexivity.
  - simpl. rewrite Ascii.eqb_refl, IH. reflexivity.
Qed.

(** A character that folds onto one letter does not fold onto another. *)
Lemma ci_eqb_other (a b c : ascii) :
  ci_eqb a c = true -> lower a <> lower b -> ci_eqb b c = false.
Proof.
  unfold ci_eqb. intros H%Ascii.eqb_eq Hne. apply Ascii.eqb_neq. congruence.
Qed.

(** *** The scan of [replace] *)

Section Scan.
Variable m : string -> option (string * nat).
Variable tpl : string -> string.

Lemma replace_go_skip (x r : string) :
  replace_go m tpl (String.length x) (x +:+ r) = replace_go m tpl O r.
Proof.
  induction x as [|c x IH]; sapp; simpl; [reflexivity|exact IH].
Qed.

Lemma replace_hit (c : ascii) (s g x r : string) (n : nat) :
  m (String c s) = Some (g, S n) -> s = x +:+ r -> String.length x = n ->
  replace_all m tpl (String c s) = tpl g +:+ replace_all m tpl r.
Proof.
  intros Hm -> <-. unfold replace_all. simpl. rewrite Hm. simpl.
  rewrite replace_go_skip. reflexivity.
Qed.

Lemma replace_prefix (f : ascii -> bool) (pre x : string) :
  (forall c s, f c = true -> m (String c s) = None) ->
  all_chars f pre = true ->
  replace_all m tpl (pre +:+ x) = pre +:+ replace_all m tpl x.
Proof.
  intros Hmiss. unfold replace_all.
  induction pre as [|c pre IH]; sapp; [reflexivity|]. simpl.
  intros [Hc Hpre]%andb_prop. rewrite (Hmiss c _ Hc), (IH Hpre). reflexivity.
Qed.

Lemma replace_none (kw : string) :
  (forall s, mentions kw s = false -> m s = None) ->
  forall s, mentions kw s = false -> replace_all m tpl s = s.
Proof.
  intros Hmiss. unfold replace_all.
  induction s as [|c s IH]; intros H; [reflexivity|].
  simpl. rewrite (Hmiss _ H).
  simpl in H. destruct (prefix_ci kw (String c s)); [discriminate|].
  rewrite (IH H). reflexivity.
Qed.

End Scan.

(** *** Where the expressions cannot match *)

Lemma match_token_miss (c : ascii) (s : string) :
  ci_eqb "t" c = false -> match_token (String c s) = None.
Proof. intros H. unfold match_token. simpl. rewrite H. reflexivity. Qed.

Lemma match_access_token_miss (c : ascii) (s : string) :
  ci_eqb "a" c = false -> match_access_token (String c s) = None.
Proof. intros H. unfold match_access_token. simpl. rewrite H. reflexivity. Qed.

Lemma match_authorization_miss (c : ascii) (s : string) :
  ci_eqb "a" c = false -> match_authorization (String c s) = None.
Proof. intros H. unfold match_authorization. simpl. rewrite H. reflexivity. Qed.

Lemma mentions_here (kw s : string) :
  mentions kw s = false -> prefix_ci kw s = None.
Proof.
  destruct s as [|c s]; simpl mentions; destruct (prefix_ci kw _);
    try discriminate; reflexivity.
Qed.

Lemma mentions_later (kw a b : string) :
  mentions kw (a +:+ b) = false -> mentions kw b = false.
Proof.
  induction a as [|c a IH]; sapp; [auto|].
  simpl mentions. destruct (prefix_ci kw (String c (a +:+ b))); [discriminate|].
  exact IH.
Qed.

Lemma match_token_unmentioned (s : string) :
  mentions "token=" s = false -> match_token s = None.
Proof.
  intros H. unfold match_token. rewrite (mentions_here _ _ H). reflexivity.
Qed.

Lemma match_access_token_unmentioned (s : string) :
  mentions "token=" s = false -> match_access_token s = None.
Proof.
  intros H. unfold match_access_token.
  destruct (prefix_ci "access" s) as [[a r]|] eqn:E; [|reflexivity].
  apply prefix_ci_split in E. subst s. apply mentions_later in H.
  set (key := prefix_ci "token=").
  destruct r as [|c r]; simpl.
  - reflexivity.
  - destruct (Ascii.eqb c "_" || Ascii.eqb c "-"); subst key.
    + change (String c r) with (String c "" +:+ r) in H.
      apply mentions_later in H. rewrite (mentions_here _ _ H). reflexivity.
    + rewrite (mentions_here _ _ H). reflexivity.
Qed.

Lemma match_authorization_unmentioned (s : string) :
  mentions "authorization:" s = false -> match_authorization s = None.
Proof.
  intros H. unfold match_authorization. rewrite (mentions_here _ _ H). reflexivity.
Qed.

Lemma length_app (a b : string) :
  String.length (a +:+ b) = (String.length a + String.length b)%nat.
Proof. induction a as [|c a IH]; sapp; simpl; [reflexivity|]. rewrite IH. reflexivity. Qed.

Lemma all_chars_app (f : ascii -> bool) (a b : string) :
  all_chars f (a +:+ b) = all_chars f a && all_chars f b.
Proof.
  induction a as [|c a IH]; sapp; simpl; [reflexivity|].
  rewrite IH, andb_assoc. reflexivity.
Qed.

Lemma all_chars_weaken (f g : ascii -> bool) (s : string) :
  (forall c, f c = true -> g c = true) ->
  all_chars f s = true -> all_chars g s = true.
Proof.
  intros Hfg. induction s as [|c s IH]; simpl; [reflexivity|].
  intros [Hc Hs]%andb_prop. rewrite (Hfg c Hc), (IH Hs). reflexivity.
Qed.

Lemma prefix_ci_keeps (q : ascii) (p s g r : string) :
  all_chars (fun a => negb (Ascii.eqb (lower a) (lower q))) p = true ->
  prefix_ci p s = Some (g, r) ->
  all_chars (fun c => negb (ci_eqb q c)) g = true.
Proof.
  revert s g r. induction p as [|a p IH]; intros s g r; simpl.
  - intros _ [= <- <-]. reflexivity.
  - intros [Ha Hp]%andb_prop.
    destruct s as [|b s]; [discriminate|].
    destruct (ci_eqb a b) eqn:Hab; [|discriminate].
    destruct (prefix_ci p s) as [[g' r']|] eqn:E; [|discriminate].
    intros [= <- <-]. simpl. rewrite (IH _ _ _ Hp E), andb_true_r.
    unfold ci_eqb in *. apply Ascii.eqb_eq in Hab. rewrite <- Hab.
    rewrite Ascii.eqb_sym. exact Ha.
Qed.

Lemma token_key_not_a (g : string) : token_key g -> all_chars not_a g = true.
Proof.
  intros H. apply (prefix_ci_keeps "a" "token=" g g "" eq_refl H).
Qed.

Lemma redact_passes (text : string) :
  replace_all match_authorization (fun g => g +:+ " ***")
    (replace_all match_access_token (fun g => g +:+ "***")
       (replace_all match_token (fun g => g +:+ "***") text))
  = redactSecrets text.
Proof. destruct text; reflexivity. Qed.

Lemma nonempty_app (a b : string) : nonempty b = true -> nonempty (a +:+ b) = true.
Proof. destruct a; sapp; auto. Qed.

(** *** [redactSecrets] *)

(** X9: a text that mentions neither [token=] nor [authorization:], in
    any mix of cases, comes back from [redactSecrets] as it went in. *)
Theorem redactSecrets_unmentioned (text : string) :
  mentions "token=" text = false ->
  mentions "authorization:" text = false ->
  redactSecrets text = text.
Proof.
  intros Ht Ha. rewrite <- redact_passes.
  rewrite (replace_none _ _ "token=" match_token_unmentioned text Ht).
  rewrite (replace_none _ _ "token=" match_access_token_unmentioned text Ht).
  apply (replace_none _ _ "authorization:" match_authorization_unmentioned text Ha).
Qed.

Lemma redactSecrets_unmentioned_witness :
  redactSecrets "WebSocket connect timeout" = "WebSocket connect timeout".
Proof. apply redactSecrets_unmentioned; reflexivity. Defined.

(** X10: a [token=] parameter, in any mix of cases, that follows a prefix
    with no [t] and no [a] in it has its value replaced by three stars,
    whatever the value is made of up to the ampersand or white space that
    ends it; the prefix and the key are kept, and what follows the value
    is redacted on its own. *)
Theorem redactSecrets_token_value (pre g v rest : string) :
  all_chars plain_char pre = true ->
  token_key g ->
  nonempty v = true ->
  all_chars value_char v = true ->
  ends_value rest ->
  redactSecrets (pre +:+ g +:+ v +:+ rest)
  = pre +:+ g +:+ "***" +:+ redactSecrets rest.
Proof.
  intros Hpre Hg Hv Hval Hrest.
  assert (Hna : all_chars not_a (pre +:+ g +:+ "***") = true).
  { rewrite !all_chars_app, (token_key_not_a g Hg).
    rewrite (all_chars_weaken plain_char not_a pre); [reflexivity| |exact Hpre].
    intros c [_ H]%andb_prop. exact H. }
  assert (Hnt : all_chars not_t pre = true).
  { apply (all_chars_weaken plain_char not_t pre); [|exact Hpre].
    intros c [H _]%andb_prop. exact H. }
  assert (Hhead : replace_all match_token (fun g => g +:+ "***") (g +:+ v +:+ rest)
                  = (g +:+ "***")
                    +:+ replace_all match_token (fun g => g +:+ "***") rest).
  { pose proof (prefix_ci_length _ _ _ _ Hg) as Hlen.
    destruct g as [|b g']; [discriminate Hlen|].
    rewrite (app_cons b g' (v +:+ rest)).
    apply (replace_hit match_token (fun g => g +:+ "***") b
             (g' +:+ v +:+ rest) (String b g') (g' +:+ v) rest
             (String.length (g' +:+ v))).
    - rewrite <- app_cons. unfold match_token.
      rewrite (prefix_ci_app _ _ (v +:+ rest) Hg).
      rewrite (span_value value_char v rest Hval Hrest).
      destruct v as [|d v']; [discriminate Hv|].
      apply f_equal, f_equal. rewrite length_app. simpl String.length. lia.
    - rewrite append_assoc. reflexivity.
    - reflexivity. }
  rewrite <- !redact_passes.
  rewrite (replace_prefix _ _ not_t pre (g +:+ v +:+ rest));
    [|intros c s Hc; apply match_token_miss;
      unfold not_t in Hc; destruct (ci_eqb "t" c); [discriminate|reflexivity]
     |exact Hnt].
  rewrite Hhead.
  replace (pre +:+ (g +:+ "***") +:+ replace_all match_token (fun g => g +:+ "***") rest)
    with ((pre +:+ g +:+ "***")
          +:+ replace_all match_token (fun g => g +:+ "***") rest)
    by (rewrite !append_assoc; reflexivity).
  rewrite (replace_prefix _ _ not_a (pre +:+ g +:+ "***"));
    [|intros c s Hc; apply match_access_token_miss;
      unfold not_a in Hc; destruct (ci_eqb "a" c); [discriminate|reflexivity]
     |exact Hna].
  rewrite (replace_prefix _ _ not_a (pre +:+ g +:+ "***"));
    [|intros c s Hc; apply match_authorization_miss;
      unfold not_a in Hc; destruct (ci_eqb "a" c); [discriminate|reflexivity]
     |exact Hna].
  rewrite !append_assoc. reflexivity.
Qed.

Lemma redactSecrets_token_value_witness :
  redactSecrets "wss://h/ws?Token=s3cr3t&x=1" = "wss://h/ws?Token=***&x=1".
Proof.
  apply (redactSecrets_token_value "wss://h/ws?" "Token=" "s3cr3t" "&x=1");
    reflexivity.
Defined.

End TextFacts.

(** ** [connect], further *)

Module ConnectMore.
Import Connect ConnectTerms.

Lemma connect_env_halves (w : World) (e : string) (timeout : Z) :
  connect_env w e timeout
  = bind (precheck w e) (fun _ => after_precheck w e timeout).
Proof. reflexivity. Qed.

Lemma precheck_unblocked (w : World) (e : string) :
  dns_blocks w e = false -> precheck w e = (dns_events w e, Normal tt).
Proof.
  unfold dns_blocks, dns_events, checked_hostname, precheck.
  destruct (new_URL w e) as [u|err]; [|reflexivity].
  destruct (nonempty (hostname u)); [|reflexivity].
  unfold assertDnsResolves, io, not_found.
  destruct (dns_lookup w (hostname u)) as [|code]; [reflexivity|].
  intros ->. reflexivity.
Qed.

Lemma precheck_blocked (w : World) (e h : string) :
  checked_hostname w e = Some h ->
  not_found (dns_lookup w h) = true ->
  precheck w e = ([IoDns h], Throw (Error (dns_error_message h))).
Proof.
  unfold checked_hostname, precheck.
  destruct (new_URL w e) as [u|err]; [|discriminate].
  destruct (nonempty (hostname u)); [|discriminate].
  intros [= <-]. unfold assertDnsResolves, io, not_found.
  destruct (dns_lookup w (hostname u)) as [|code]; [discriminate|].
  intros ->. reflexivity.
Qed.

Lemma connect_with_endpoint (w : World) (e : string) (timeout : Z) :
  getCdpWsUrlFromEnv w = Some e ->
  connect w timeout
  = try_catch (bind (precheck w e) (fun _ => after_precheck w e timeout))
              (fun err => throw (Error (wrapped_message w e err))).
Proof. intros H. unfold connect. rewrite H. reflexivity. Qed.


(** X1: [LIGHTPANDA_CDP_URL], when it is set and not empty, decides the
    endpoint alone: it is trimmed, and [CDP_WS_URL] is not looked at.
    That holds even when it is nothing but white space: the endpoint is
    then missing and [connect] goes to the localhost fallback, whatever
    [CDP_WS_URL] says. *)
Theorem endpoint_from_environment (w : World) (s : string) :
  env_LIGHTPANDA_CDP_URL w = Some s ->
  nonempty s = true ->
  getCdpWsUrlFromEnv w = (if nonempty (trim s) then Some (trim s) else None)
  /\ (Text.all_chars is_space s = true ->
      forall timeout, connect w timeout = connect_fallback w timeout).
Proof.
  intros Hs Hne.
  assert (H : getCdpWsUrlFromEnv w
              = (if nonempty (trim s) then Some (trim s) else None)).
  { unfold getCdpWsUrlFromEnv, env_or. rewrite Hs, Hne. reflexivity. }
  split; [exact H|].
  intros Hblank timeout. unfold connect.
  rewrite H, (TextFacts.trim_blank s Hblank). reflexivity.
Qed.

Lemma endpoint_from_environment_witness :
  connect (sample_world (Some "  ") (Some "ws://other/") "ws://other/" ftp_url
             DnsResolves (fun _ => WsOpens) (fun _ => FetchRejects invalid_url))
          5000
  = ([IoFetch "http://localhost:9222/json/version" 5000], Throw invalid_url).
Proof.
  destruct (endpoint_from_environment
              (sample_world (Some "  ") (Some "ws://other/") "ws://other/" ftp_url
                 DnsResolves (fun _ => WsOpens) (fun _ => FetchRejects invalid_url))
              "  " eq_refl eq_refl) as [_ H].
  rewrite (H eq_refl 5000). reflexivity.
Defined.

(** X2: [connect] depends on the resolver only through whether a lookup
    fails with [ENOTFOUND]: two resolvers that agree on that give the same
    run, so a lookup that fails with any other code counts as one that
    resolved. *)
Theorem connect_dns_only_not_found
  (w : World) (dns1 dns2 : string -> DnsResult) (timeout : Z) :
  (forall h, not_found (dns1 h) = not_found (dns2 h)) ->
  connect (with_dns w dns1) timeout = connect (with_dns w dns2) timeout.
Proof.
  intros Hagree. unfold connect.
  change (getCdpWsUrlFromEnv (with_dns w dns1)) with (getCdpWsUrlFromEnv w).
  change (getCdpWsUrlFromEnv (with_dns w dns2)) with (getCdpWsUrlFromEnv w).
  destruct (getCdpWsUrlFromEnv w) as [e|]; [|reflexivity].
  assert (Hpre : precheck (with_dns w dns1) e = precheck (with_dns w dns2) e).
  { unfold precheck. simpl new_URL.
    destruct (new_URL w e) as [u|err]; [|reflexivity].
    destruct (nonempty (hostname u)); [|reflexivity].
    unfold assertDnsResolves. simpl dns_lookup.
    specialize (Hagree (hostname u)). unfold not_found in Hagree.
    destruct (dns1 (hostname u)) as [|c1], (dns2 (hostname u)) as [|c2];
      try reflexivity.
    - rewrite <- Hagree. reflexivity.
    - rewrite Hagree. reflexivity.
    - rewrite Hagree. reflexivity. }
  rewrite !connect_env_halves, Hpre. reflexivity.
Qed.

Lemma connect_dns_only_not_found_witness :
  connect (with_dns (cloud_run DnsResolves (fun _ => WsOpens))
             (fun _ => DnsFails "EAI_AGAIN")) 5000
  = ([IoDns "cloud.example";
      IoWebSocket "wss://cloud.example/ws?token=abc" 5000],
     Normal (Connected "wss://cloud.example/ws?token=abc")).
Proof.
  rewrite (connect_dns_only_not_found (cloud_run DnsResolves (fun _ => WsOpens))
             (fun _ => DnsFails "EAI_AGAIN") (fun _ => DnsResolves) 5000).
  - reflexivity.
  - intros h. reflexivity.
Defined.

(** X3: whatever the scheme of the endpoint, when the lookup of its
    hostname fails with [ENOTFOUND] the lookup is all that [connect] does:
    no socket is opened and nothing is fetched, and the failure is the
    wrapped DNS error that names the host. *)
Theorem dns_not_found_stops_connect (w : World) (e h : string) (timeout : Z) :
  getCdpWsUrlFromEnv w = Some e ->
  checked_hostname w e = Some h ->
  dns_lookup w h = DnsFails "ENOTFOUND" ->
  connect w timeout
  = ([IoDns h],
     Throw (Error ("Failed to connect to CDP websocket at "
                   +:+ describeWsEndpoint w e
                   +:+ ". Verify LIGHTPANDA_CDP_URL and your network access."
                   +:+ (if nonempty (redactSecrets (dns_error_message h))
                        then " " +:+ redactSecrets (dns_error_message h)
                        else "")))).
Proof.
  intros Henv Hh Hdns. rewrite (connect_with_endpoint w e timeout Henv).
  rewrite (precheck_blocked w e h Hh); [reflexivity|].
  rewrite Hdns. reflexivity.
Qed.

Lemma dns_not_found_stops_connect_witness :
  connect (cloud_run (DnsFails "ENOTFOUND") (fun _ => WsOpens)) 5000
  = ([IoDns "cloud.example"],
     Throw (Error "Failed to connect to CDP websocket at wss://cloud.example/ws. Verify LIGHTPANDA_CDP_URL and your network access. DNS lookup failed for host 'cloud.example' (ENOTFOUND).")).
Proof.
  rewrite (dns_not_found_stops_connect
             (cloud_run (DnsFails "ENOTFOUND") (fun _ => WsOpens))
             "wss://cloud.example/ws?token=abc" "cloud.example" 5000);
    reflexivity.
Defined.

(** X4: for an endpoint that starts with [ws://] or [wss://], once the
    lookup has not stopped it, [connect] fetches nothing and opens at most
    one socket: exactly one when the runtime has a WebSocket
    implementation, to the endpoint as the environment gives it (trimmed,
    query included) and under the given timeout, and none when it has
    not.  It returns the client of that socket when it opens; every
    failure is the wrapped error of the socket, or the wrapped error that
    says that WebSocket is not available. *)
Theorem connect_websocket_endpoint (w : World) (e : string) (timeout : Z) :
  getCdpWsUrlFromEnv w = Some e ->
  startsWith e "ws://" || startsWith e "wss://" = true ->
  dns_blocks w e = false ->
  fst (connect w timeout)
  = (dns_events w e
     ++ (if websocket_available w then [IoWebSocket e timeout] else []))%list
  /\ (websocket_available w = true ->
      new_WebSocket w e = WsOpens ->
      snd (connect w timeout) = Normal (Connected e))
  /\ (forall err, snd (connect w timeout) = Throw err ->
      exists inner,
        err = Error (wrapped_message w e inner)
        /\ (websocket_available w = true
            /\ (inner = Error "WebSocket error"
                \/ inner = Error "WebSocket connect timeout"
                \/ new_WebSocket w e = WsThrows inner)
            \/ websocket_available w = false
               /\ inner = Error "WebSocket is not available in this Node.js runtime. Use Node >= 20 (recommended) or install the 'ws' package.")).
Proof.
  intros Henv Hws Hdns.
  assert (Hrun : connect w timeout
                 = if websocket_available w then
                     ((dns_events w e ++ [IoWebSocket e timeout])%list,
                      match new_WebSocket w e with
                      | WsOpens => Normal (Connected e)
                      | WsErrors =>
                          Throw (Error (wrapped_message w e (Error "WebSocket error")))
                      | WsTimesOut =>
                          Throw (Error (wrapped_message w e
                                          (Error "WebSocket connect timeout")))
                      | WsThrows inner => Throw (Error (wrapped_message w e inner))
                      end)
                   else
                     (dns_events w e,
                      Throw (Error (wrapped_message w e
                                      (Error no_websocket_message))))).
  { rewrite (connect_with_endpoint w e timeout Henv).
    rewrite (precheck_unblocked w e Hdns).
    unfold after_precheck. rewrite Hws. unfold connectWebSocket, io.
    destruct (websocket_available w);
      [|simpl; rewrite ?app_nil_r; reflexivity].
    destruct (new_WebSocket w e); simpl; rewrite ?app_nil_r; reflexivity. }
  rewrite Hrun. destruct (websocket_available w); simpl.
  - split; [reflexivity|]. split.
    + intros _ ->. reflexivity.
    + intros err.
      destruct (new_WebSocket w e) as [| | |inner]; intros H; inversion H; subst;
        eexists; (split; [reflexivity|]); left; auto.
  - split; [symmetry; apply app_nil_r|]. split.
    + intros H. discriminate H.
    + intros err [= <-]. eexists. split; [reflexivity|]. right. auto.
Qed.

Lemma connect_websocket_endpoint_witness :
  fst (connect (cloud_run DnsResolves (fun _ => WsOpens)) 5000)
  = [IoDns "cloud.example"; IoWebSocket "wss://cloud.example/ws?token=abc" 5000].
Proof.
  destruct (connect_websocket_endpoint (cloud_run DnsResolves (fun _ => WsOpens))
              "wss://cloud.example/ws?token=abc" 5000
              eq_refl eq_refl eq_refl) as [H _].
  exact H.
Defined.

(** *** Discovery over HTTP *)

Lemma truthy_get_opt (doc : JsValue) (k : string) :
  truthy (get_opt doc k) = true -> get_opt doc k = get doc k.
Proof. unfold get_opt. destruct (nullish doc); [discriminate|reflexivity]. Qed.

Lemma resolve_unfold (w : World) (url : string) (timeout : Z) :
  resolveWsFromHttp w url timeout
  = match first_attempt w url with
    | Some v => ([IoFetch url timeout], Normal v)
    | None =>
        match joinUrl w url "/json/version" with
        | Throw e => ([IoFetch url timeout], Throw e)
        | Normal versionUrl =>
            ([IoFetch url timeout; IoFetch versionUrl timeout],
             match fetch w versionUrl with
             | FetchRejects e => Throw e
             | FetchResponds ok status json =>
                 if ok then
                   match json with
                   | Normal doc =>
                       if truthy (get_opt doc "webSocketDebuggerUrl")
                       then Normal (get doc "webSocketDebuggerUrl")
                       else Throw (Error "Could not resolve webSocketDebuggerUrl from HTTP endpoint.")
                   | Throw e => Throw e
                   end
                 else Throw (Error ("HTTP " +:+ pretty status))
             end)
        end
    end.
Proof.
  unfold resolveWsFromHttp, first_attempt, fetchJsonWithTimeout, io, lift.
  destruct (fetch w url) as [e|ok status [doc|e]]; simpl.
  2: destruct ok; simpl.
  2: destruct (truthy (get_opt doc "webSocketDebuggerUrl")); simpl; [reflexivity|].
  4: destruct ok; simpl.
  all: destruct (joinUrl w url "/json/version") as [versionUrl|e']; simpl;
    try reflexivity.
  all: destruct (fetch w versionUrl) as [e2|ok2 status2 [doc2|e2]]; simpl;
    try reflexivity.
  all: destruct ok2; simpl; try reflexivity.
  all: destruct (truthy (get_opt doc2 "webSocketDebuggerUrl")); reflexivity.
Qed.

(** X6: [resolveWsFromHttp] fetches the URL as it is given first, then at
    most one more URL, and does nothing but fetch.  When the first answer
    is a document with a truthy [webSocketDebuggerUrl] it returns that
    value after the one fetch; and a value it returns is always truthy,
    so it never hands an empty or missing URL to the socket. *)
Theorem resolveWsFromHttp_outcomes (w : World) (url : string) (timeout : Z) :
  (exists rest,
     fst (resolveWsFromHttp w url timeout) = IoFetch url timeout :: rest
     /\ (length rest <= 1)%nat /\ forallb is_fetch rest = true)
  /\ (forall v, snd (resolveWsFromHttp w url timeout) = Normal v ->
                truthy v = true)
  /\ (forall status doc,
        fetch w url = FetchResponds true status (Normal doc) ->
        truthy (get_opt doc "webSocketDebuggerUrl") = true ->
        resolveWsFromHttp w url timeout
        = ([IoFetch url timeout], Normal (get doc "webSocketDebuggerUrl"))).
Proof.
  rewrite resolve_unfold. split; [|split].
  - destruct (first_attempt w url); [simpl; eauto|].
    destruct (joinUrl w url "/json/version"); simpl; eauto.
  - intros v. unfold first_attempt.
    assert (Hfound : forall doc,
              truthy (get_opt doc "webSocketDebuggerUrl") = true ->
              truthy (get doc "webSocketDebuggerUrl") = true).
    { intros doc H. rewrite <- (truthy_get_opt _ _ H). exact H. }
    destruct (fetch w url) as [e|ok status [doc|e]]; simpl.
    2: destruct ok; simpl.
    2: destruct (truthy (get_opt doc "webSocketDebuggerUrl")) eqn:Hd; simpl;
         [intros [= <-]; apply Hfound, Hd|].
    4: destruct ok; simpl.
    all: destruct (joinUrl w url "/json/version") as [versionUrl|e'];
      simpl; try discriminate.
    all: destruct (fetch w versionUrl) as [e2|ok2 status2 [doc2|e2]];
      try discriminate.
    all: destruct ok2; try discriminate.
    all: destruct (truthy (get_opt doc2 "webSocketDebuggerUrl")) eqn:Hd2;
      try discriminate.
    all: intros [= <-]; apply Hfound, Hd2.
  - intros status doc Hfetch Hd. unfold first_attempt. rewrite Hfetch, Hd.
    reflexivity.
Qed.

Lemma resolveWsFromHttp_outcomes_witness :
  resolveWsFromHttp
    (http_run (fun _ => WsErrors)
       (fun _ => FetchResponds true 200
                   (Normal (JObj [("webSocketDebuggerUrl",
                                   JStr "wss://cloud.example/ws")]))))
    "https://cloud.example/?token=abc" 5000
  = ([IoFetch "https://cloud.example/?token=abc" 5000],
     Normal (JStr "wss://cloud.example/ws")).
Proof.
  apply (proj2 (proj2 (resolveWsFromHttp_outcomes _ _ 5000)) 200
           (JObj [("webSocketDebuggerUrl", JStr "wss://cloud.example/ws")]));
    reflexivity.
Defined.






(** X7: for a path of letters, digits, slashes, hyphens and underscores,
    such as the [/json/version] that the code passes, [joinUrl] supplies
    the leading slash of the path when it is missing, so a path joins the
    same with it or without it, and it removes exactly one trailing slash
    of the path of the base before it appends. *)
Theorem joinUrl_slashes (w : World) (base path : string) (u : URL) :
  Text.all_chars Text.path_char path = true ->
  new_URL w base = Normal u ->
  joinUrl w base path = joinUrl w base (leading_slash path)
  /\ (forall p, pathname u = p +:+ "/" ->
      joinUrl w base path
      = Normal (href (with_pathname u (p +:+ leading_slash path)))).
Proof.
  intros _ Hurl. unfold joinUrl. rewrite Hurl.
  assert (Hidem : leading_slash (leading_slash path) = leading_slash path).
  { unfold leading_slash. destruct (startsWith path "/") eqn:E.
    - rewrite E. reflexivity.
    - rewrite (TextFacts.startsWith_app "/" path). reflexivity. }
  fold (leading_slash path). fold (leading_slash (leading_slash path)).
  rewrite Hidem. split; [reflexivity|].
  intros p Hp. rewrite Hp, TextFacts.strip_one_trailing_slash. reflexivity.
Qed.

Lemma joinUrl_slashes_witness :
  joinUrl (http_run (fun _ => WsOpens) (fun _ => FetchRejects invalid_url))
          "https://cloud.example/?token=abc" "json/version"
  = Normal "https://cloud.example/json/version?token=abc".
Proof.
  destruct (joinUrl_slashes
              (http_run (fun _ => WsOpens) (fun _ => FetchRejects invalid_url))
              "https://cloud.example/?token=abc" "json/version" http_url
              eq_refl eq_refl)
    as [_ H].
  rewrite (H "" eq_refl). reflexivity.
Defined.

(** X8: with an endpoint in the environment, [connect] performs the
    operations of its [try] block and returns what the block returns; and
    it fails exactly when the block throws, with a plain [Error] in place
    of the error that the block threw (the name of that error is not
    kept).  The message starts with [Failed to connect to CDP websocket
    at], names the endpoint by protocol, host and path only (or as
    [(invalid url)]), and ends, after a space, with the redacted message
    of the error that the block threw, when that is not empty. *)
Theorem connect_env_failures_wrapped (w : World) (e : string) (timeout : Z) :
  getCdpWsUrlFromEnv w = Some e ->
  fst (connect w timeout) = fst (connect_env w e timeout)
  /\ (forall c, snd (connect_env w e timeout) = Normal c ->
                snd (connect w timeout) = Normal c)
  /\ (forall inner,
        snd (connect_env w e timeout) = Throw inner ->
        snd (connect w timeout)
        = Throw (Error ("Failed to connect to CDP websocket at "
                        +:+ describeWsEndpoint w e
                        +:+ ". Verify LIGHTPANDA_CDP_URL and your network access."
                        +:+ (if nonempty (redactSecrets (exn_message inner))
                             then " " +:+ redactSecrets (exn_message inner)
                             else ""))))
  /\ (forall err,
        snd (connect w timeout) = Throw err ->
        exn_name err = "Error"
        /\ startsWith (exn_message err) "Failed to connect to CDP websocket at "
           = true
        /\ exists inner, snd (connect_env w e timeout) = Throw inner)
  /\ (forall u, new_URL w e = Normal u ->
                describeWsEndpoint w e = protocol u +:+ "//" +:+ host u +:+ pathname u)
  /\ (forall x, new_URL w e = Throw x -> describeWsEndpoint w e = "(invalid url)").
Proof.
  intros Henv. unfold connect. rewrite Henv.
  destruct (connect_env w e timeout) as [tr [c|inner]]; simpl.
  - split; [reflexivity|]. split; [auto|]. split; [intros ? H; discriminate H|].
    split; [intros ? H; discriminate H|].
    unfold describeWsEndpoint. split; intros ? ->; reflexivity.
  - split; [apply app_nil_r|]. split; [intros ? H; discriminate H|].
    split; [intros ? [= <-]; reflexivity|]. split.
    + intros err [= <-]. split; [reflexivity|]. split; [|eauto].
      unfold wrapped_message. simpl exn_message. apply TextFacts.startsWith_app.
    + unfold describeWsEndpoint. split; intros ? ->; reflexivity.
Qed.

Lemma connect_env_failures_wrapped_witness :
  snd (connect_env (cloud_run DnsResolves (fun _ => WsThrows handshake_error))
                   "wss://cloud.example/ws?token=abc" 5000)
  = Throw handshake_error
  /\ snd (connect (cloud_run DnsResolves (fun _ => WsThrows handshake_error)) 5000)
     = Throw (Error "Failed to connect to CDP websocket at wss://cloud.example/ws. Verify LIGHTPANDA_CDP_URL and your network access. Handshake refused for wss://cloud.example/ws?token=*** with Authorization: *** s3cr3t").
Proof.
  split; [reflexivity|].
  destruct (connect_env_failures_wrapped
              (cloud_run DnsResolves (fun _ => WsThrows handshake_error))
              "wss://cloud.example/ws?token=abc" 5000 eq_refl)
    as (_ & _ & H & _).
  rewrite (H handshake_error eq_refl). vm_compute. reflexivity.
Defined.

End ConnectMore.

(** ** The [CDP] class, further *)

Module ClientMore.
Import Client ClientTerms ClientFacts.

Lemma set_eventHandlers_id (c : CDP) : set_eventHandlers (eventHandlers c) c = c.
Proof. destruct c; reflexivity. Qed.

Lemma filter_all {A} (P : A -> Prop) `{forall x, Decision (P x)} (l : list A) :
  (forall x, x ∈ l -> P x) -> filter P l = l.
Proof.
  induction l as [|x l IH]; intros Hall; [reflexivity|].
  rewrite filter_cons. destruct (decide (P x)) as [_|Hn].
  - rewrite IH; [reflexivity|]. intros y Hy. apply Hall. right. exact Hy.
  - exfalso. apply Hn, Hall. left.
Qed.

Lemma on_handlers (method : string) (h : nat) (c : CDP) :
  eventHandlers (on method h c)
  = <[method := if bool_decide (h ∈ handlers_of c method)
                then handlers_of c method
                else (handlers_of c method ++ [h])%list]> (eventHandlers c).
Proof. reflexivity. Qed.

Lemma off_fields (method : string) (h : nat) (c : CDP) :
  callbacks (off method h c) = callbacks c
  /\ promises (off method h c) = promises c
  /\ timers (off method h c) = timers c
  /\ invoked (off method h c) = invoked c
  /\ handlers_of (off method h c) method
     = filter (fun x => x <> h) (handlers_of c method).
Proof.
  unfold off, handlers_of.
  destruct (eventHandlers c !! method) as [hs|] eqn:E; simpl.
  - destruct (filter _ hs) as [|x l] eqn:F; simpl.
    + rewrite lookup_delete_eq. tauto.
    + rewrite lookup_insert_eq. tauto.
  - rewrite E. tauto.
Qed.

(** X12: registering a handler that is already registered changes
    nothing: [on] twice is [on] once, and after [on] the handler is
    among those of the method. *)
Theorem on_twice (method : string) (h : nat) (c : CDP) :
  on method h (on method h c) = on method h c
  /\ h ∈ handlers_of (on method h c) method.
Proof.
  assert (Hin : h ∈ handlers_of (on method h c) method).
  { unfold handlers_of. rewrite on_handlers, lookup_insert_eq. simpl.
    case_bool_decide; [assumption|]. apply elem_of_app. right. left. }
  split; [|exact Hin].
  unfold on at 1. fold (handlers_of (on method h c) method).
  rewrite (bool_decide_eq_true_2 _ Hin).
  unfold handlers_of at 1. rewrite on_handlers, lookup_insert_eq. simpl.
  rewrite insert_insert_eq. reflexivity.
Qed.

(** X13: in a client whose handler sets are in order, unsubscribing
    undoes subscribing: for a handler that was not registered for the
    method, [off] after [on] gives the client back as it was, the entry of
    the method included. *)
Theorem off_undoes_on (method : string) (h : nat) (c : CDP) :
  handlers_ok c ->
  h ∉ handlers_of c method ->
  off method h (on method h c) = c.
Proof.
  intros Hok Hnot. unfold off. rewrite on_handlers, lookup_insert_eq.
  rewrite (bool_decide_eq_false_2 _ Hnot).
  rewrite filter_app, (filter_all (fun x => x <> h) (handlers_of c method)).
  2: { intros x Hx ->. contradiction. }
  rewrite filter_cons. destruct (decide (h <> h)) as [Hne|_]; [contradiction|].
  rewrite filter_nil, app_nil_r.
  unfold handlers_of in *.
  destruct (eventHandlers c !! method) as [hs|] eqn:E; simpl.
  - destruct hs as [|x hs]; [destruct (Hok method [] E) as [Hne _]; contradiction|].
    unfold on. simpl. rewrite insert_insert_eq, (insert_id _ _ _ E).
    destruct c; reflexivity.
  - unfold on. simpl. rewrite delete_insert_eq, (delete_id _ _ E).
    destruct c; reflexivity.
Qed.

Lemma off_undoes_on_witness : off "Page.loadEventFired" 2 two_handlers
                              = on "Page.loadEventFired" 1 new_CDP.
Proof.
  apply (off_undoes_on "Page.loadEventFired" 2 (on "Page.loadEventFired" 1 new_CDP)).
  - intros m hs. unfold on. simpl. intros [[<- <-]|[_ H]]%lookup_insert_Some.
    + split; [discriminate|]. apply NoDup_singleton.
    + rewrite lookup_empty in H. discriminate H.
  - vm_compute. intros H. apply list_elem_of_In in H. destruct H as [H|[]].
    discriminate H.
Defined.

Section WithPlatform.
Variable JSON_parse : string -> option JsValue.
Variable handler_body : nat -> JsValue -> JsValue -> Completion JsError unit.

Abbreviation emit := (Client.emit handler_body).
Abbreviation dispatch := (Client.dispatch handler_body).
Abbreviation on_message := (Client.on_message JSON_parse handler_body).
Abbreviation step := (Client.step JSON_parse handler_body).
Abbreviation run := (Client.run JSON_parse handler_body).
Abbreviation reachable := (Client.reachable JSON_parse handler_body).

(** *** What a step does to each part of the client *)

Lemma complete_fields (k : Z) (cb : Callback) (o : Promise) (c : CDP) :
  eventHandlers (complete k cb o c) = eventHandlers c
  /\ invoked (complete k cb o c) = invoked c
  /\ ws_closed (complete k cb o c) = ws_closed c
  /\ timers (complete k cb o c) = delete (cb_timer cb) (timers c)
  /\ promises (complete k cb o c)
     = match promises c !! cb_promise cb with
       | Some Pending => <[cb_promise cb := o]> (promises c)
       | _ => promises c
       end.
Proof.
  unfold complete.
  match goal with |- context [settle ?p ?o' ?c1] =>
    destruct (settle_spec p o' c1) as (-> & _ & _ & _ & -> & -> & _ & -> & ->)
  end. simpl. tauto.
Qed.

(** How the listener ends on a frame that parsed to [msg]: a call
    completes, or its entry goes and the listener throws, or the handlers
    of an event have run. *)
Lemma dispatch_cases (msg : JsValue) (c : CDP) :
  (exists k cb o,
     callbacks c !! k = Some cb /\ get msg "id" = JNum k /\ o <> Pending
     /\ reply_outcome msg = Normal o
     /\ dispatch msg c = (Normal tt, complete k cb o c))
  \/ (exists k cb e,
        callbacks c !! k = Some cb /\ get msg "id" = JNum k
        /\ reply_outcome msg = Throw e
        /\ dispatch msg c = (Throw e, set_callbacks (delete k (callbacks c)) c))
  \/ (exists l, dispatch msg c = (Normal tt, set_invoked l c)).
Proof.
  unfold Client.dispatch.
  destruct (if truthy (get msg "id") then _ else _) as [[k cb]|] eqn:E.
  - destruct (truthy (get msg "id")); [|discriminate].
    apply callbacks_get_Some in E as [Hid Hk].
    destruct (reply_outcome msg) as [o|e] eqn:Ho.
    + left. exists k, cb, o. repeat (split; [assumption|]).
      split; [|auto]. unfold reply_outcome in Ho.
      destruct (truthy (get msg "error")); [|congruence].
      destruct (new_Error _); congruence.
    + right. left. exists k, cb, e. auto.
  - right. right. destruct (truthy (get msg "method")).
    + rewrite emit_spec. eexists. reflexivity.
    + exists (invoked c). rewrite set_invoked_id. reflexivity.
Qed.

Lemma on_message_cases (text : string) (c : CDP) :
  (exists k cb o,
     callbacks c !! k = Some cb /\ o <> Pending
     /\ snd (on_message text c) = complete k cb o c)
  \/ (exists k, snd (on_message text c) = set_callbacks (delete k (callbacks c)) c)
  \/ (exists l, snd (on_message text c) = set_invoked l c).
Proof.
  destruct (JSON_parse text) as [msg|] eqn:Hp.
  - destruct (nullish msg) eqn:Hn.
    + right. right. exists (invoked c). unfold Client.on_message.
      rewrite Hp, Hn. simpl. rewrite set_invoked_id. reflexivity.
    + rewrite (on_message_parsed _ _ text msg c Hp Hn).
      destruct (dispatch_cases msg c)
        as [(k & cb & o & Hk & _ & Ho & _ & ->)
           |[(k & cb & e & _ & _ & _ & ->)|[l ->]]].
      * left. exists k, cb, o. auto.
      * right. left. exists k. reflexivity.
      * right. right. exists l. reflexivity.
  - right. right. exists (invoked c). unfold Client.on_message.
    rewrite Hp. simpl. rewrite set_invoked_id. reflexivity.
Qed.

(** *** Handler sets *)

Lemma handlers_ok_step (c : CDP) (ev : Event) :
  handlers_ok c -> handlers_ok (step c ev).
Proof.
  intros Hok.
  destruct ev as [method params sessionId timeout|text|t| |method h|method h];
    unfold Client.step.
  - destruct (send_spec method params sessionId timeout c)
      as (_ & _ & _ & _ & _ & _ & _ & E).
    unfold handlers_ok. rewrite E. exact Hok.
  - destruct (on_message_cases text c)
      as [(k & cb & o & _ & _ & E)|[[k E]|[l E]]];
      rewrite E; unfold handlers_ok.
    + destruct (complete_fields k cb o c) as (-> & _). exact Hok.
    + exact Hok.
    + exact Hok.
  - unfold fire_timer. destruct (timers c !! t) as [tm|]; [|exact Hok].
    unfold handlers_ok.
    match goal with |- context [settle ?p ?o' ?c1] =>
      destruct (settle_spec p o' c1) as (_ & _ & _ & _ & -> & _)
    end. exact Hok.
  - exact Hok.
  - intros m hs. rewrite on_handlers.
    intros [[<- <-]|[_ H]]%lookup_insert_Some; [|exact (Hok m hs H)].
    assert (Hhs : NoDup (handlers_of c method)).
    { unfold handlers_of. destruct (eventHandlers c !! method) as [l|] eqn:E.
      - exact (proj2 (Hok method l E)).
      - apply NoDup_nil_2. }
    case_bool_decide as Hin.
    + split; [|exact Hhs]. intros Hnil. rewrite Hnil in Hin.
      apply elem_of_nil in Hin. exact Hin.
    + split.
      * intros Hnil. apply app_eq_nil in Hnil as [_ Hnil]. discriminate Hnil.
      * apply NoDup_app. split; [exact Hhs|]. split; [|apply NoDup_singleton].
        intros x Hx Hxh. apply list_elem_of_singleton in Hxh. subst x.
        contradiction.
  - intros m hs. unfold off.
    destruct (eventHandlers c !! method) as [l|] eqn:E; [|apply Hok].
    destruct (filter (fun x => x <> h) l) as [|x l'] eqn:F; simpl.
    + intros [_ H]%lookup_delete_Some. exact (Hok m hs H).
    + intros [[<- <-]|[_ H]]%lookup_insert_Some; [|exact (Hok m hs H)].
      split; [discriminate|]. rewrite <- F.
      apply NoDup_filter, (proj2 (Hok method l E)).
Qed.

(** X11: in every client that a history produces, each set of handlers is
    a set: a method that has an entry has at least one handler, and no
    handler occurs twice in it, whatever the order of [on] and [off]. *)
Theorem handler_sets_in_order (evs : list Event) :
  handlers_ok (run evs new_CDP).
Proof.
  assert (H : forall c, handlers_ok c -> handlers_ok (run evs c)).
  { induction evs as [|ev evs IH]; intros c Hc; [exact Hc|].
    apply (IH (step c ev)), handlers_ok_step, Hc. }
  apply H. intros m hs Hm. simpl in Hm. rewrite lookup_empty in Hm.
  discriminate Hm.
Qed.

(** X14: after [off], an event of the method is delivered to the handlers
    that remain, in their order, and the handler that was removed is not
    called. *)
Theorem event_after_off
  (c : CDP) (method : string) (h : nat) (text : string) (msg : JsValue) :
  JSON_parse text = Some msg ->
  event_for c method msg ->
  on_message text (off method h c)
  = (Normal tt,
     delivered (js_or (get msg "params") (JObj []))
               (js_or (get msg "sessionId") JNull)
               (filter (fun x => x <> h) (handlers_of c method))
               (off method h c))
  /\ h ∉ filter (fun x => x <> h) (handlers_of c method).
Proof.
  intros Hparse Hev. split.
  - assert (Hnn : nullish msg = false).
    { destruct Hev as (Hm & _). destruct msg; try reflexivity; discriminate Hm. }
    destruct (off_fields method h c) as (Hcb & _ & _ & _ & Hhs).
    assert (Hev' : event_for (off method h c) method msg).
    { destruct Hev as (Hm & Hne & Hid). split; [exact Hm|]. split; [exact Hne|].
      intros Ht. specialize (Hid Ht). unfold callbacks_get in *.
      rewrite Hcb. exact Hid. }
    rewrite (on_message_parsed _ _ text msg _ Hparse Hnn).
    rewrite (dispatch_event handler_body _ method msg Hev').
    fold (handlers_of (off method h c) method). rewrite Hhs. reflexivity.
  - intros [Hne _]%list_elem_of_filter. contradiction.
Qed.

(** *** The listener *)


(** X16: a frame whose id is that of a pending call is a reply and
    nothing else: even when it names a method that has handlers, no
    handler is called and no handler set changes. *)
Theorem reply_is_not_an_event
  (c : CDP) (text : string) (msg : JsValue) (k : Z) (cb : Callback) :
  reachable c ->
  JSON_parse text = Some msg ->
  get msg "id" = JNum k ->
  callbacks c !! k = Some cb ->
  invoked (snd (on_message text c)) = invoked c
  /\ eventHandlers (snd (on_message text c)) = eventHandlers c
  /\ callbacks (snd (on_message text c)) !! k = None.
Proof.
  intros Hreach Hparse Hid Hk.
  pose proof (reachable_wf _ _ c Hreach) as Hwf.
  assert (Hnn : nullish msg = false).
  { destruct msg; try reflexivity; discriminate Hid. }
  rewrite (on_message_parsed _ _ text msg c Hparse Hnn).
  rewrite (dispatch_reply handler_body c msg k cb Hwf Hid Hk).
  destruct (reply_outcome msg) as [o|e]; simpl snd.
  - destruct (complete_spec k cb o c Hwf Hk)
      as (_ & _ & Hc & _ & _ & _ & _ & _ & _ & Hh & Hi).
    auto.
  - simpl. split; [reflexivity|]. split; [reflexivity|]. apply lookup_delete_eq.
Qed.

(** *** Calls do not disturb each other *)

(** X17: a timer that fires settles its own call and nothing else: every
    other pending entry, promise and timer is as before, and so are the
    counter, the frames sent, the socket, the handler sets and the calls
    made to handlers. *)
Theorem timeout_is_local (c : CDP) (t : nat) (tm : Timer) :
  reachable c ->
  timers c !! t = Some tm ->
  (forall k, k <> tm_msgId tm ->
             callbacks (fire_timer t c) !! k = callbacks c !! k)
  /\ (forall p, p <> tm_promise tm ->
                promises (fire_timer t c) !! p = promises c !! p)
  /\ (forall t', t' <> t -> timers (fire_timer t c) !! t' = timers c !! t')
  /\ id (fire_timer t c) = id c
  /\ ws_sent (fire_timer t c) = ws_sent c
  /\ ws_closed (fire_timer t c) = ws_closed c
  /\ eventHandlers (fire_timer t c) = eventHandlers c
  /\ invoked (fire_timer t c) = invoked c.
Proof.
  intros Hreach Ht. pose proof (reachable_wf _ _ c Hreach) as Hwf.
  destruct (fire_timer_spec t tm c Hwf Ht)
    as (_ & _ & _ & Hck & Hpo & Hto & Hid & Hs & Hw & Hh & Hi).
  auto 10.
Qed.

(** X18: a promise settles once: when it has been fulfilled or rejected
    in a client that a history produced, it keeps that outcome along every
    further history, whatever replies arrive and whatever timers fire. *)
Theorem settled_promise_is_final
  (c : CDP) (p : nat) (o : Promise) (later : list Event) :
  reachable c ->
  promises c !! p = Some o ->
  o <> Pending ->
  promises (run later c) !! p = Some o.
Proof.
  intros Hreach Hp Hne. pose proof (reachable_wf _ _ c Hreach) as Hwf.
  assert (Hzero : callbacks c !! 0 = None).
  { destruct (callbacks c !! 0) as [cb|] eqn:E; [|reflexivity].
    pose proof (wf_keys c Hwf 0 cb E). lia. }
  apply (run_settled JSON_parse handler_body later c 0 p o Hwf
           (wf_id c Hwf) Hzero Hp Hne).
Qed.

(** *** No call without a timer *)

Lemma pending_armed_complete (k : Z) (cb : Callback) (tm0 : Timer) (o : Promise)
  (c : CDP) :
  wf c -> pending_armed c ->
  timers c !! cb_timer cb = Some tm0 -> tm_promise tm0 = cb_promise cb ->
  o <> Pending ->
  pending_armed (complete k cb o c).
Proof.
  intros Hwf Harmed Htm0 Hp0 Ho p.
  destruct (complete_fields k cb o c) as (_ & _ & _ & -> & ->).
  destruct (wf_timer_handle c Hwf _ _ Htm0) as [Ht0 _].
  pose proof (wf_timer_pending c Hwf _ _ Htm0) as Hpend. rewrite Hp0 in Hpend.
  rewrite Hpend. intros Hp.
  destruct (decide (p = cb_promise cb)) as [->|Hne].
  - rewrite lookup_insert_eq in Hp. congruence.
  - rewrite lookup_insert_ne in Hp by congruence.
    destruct (Harmed p Hp) as (tm & Htm & Hpt).
    exists tm. split; [|exact Hpt].
    rewrite lookup_delete_ne; [exact Htm|]. rewrite Ht0, Hp0. congruence.
Qed.

Lemma pending_armed_step (c : CDP) (ev : Event) :
  wf c -> pending_armed c -> pending_armed (step c ev).
Proof.
  intros Hwf Harmed.
  destruct ev as [method params sessionId timeout|text|t| |method h|method h];
    unfold Client.step.
  - destruct (send_spec method params sessionId timeout c)
      as (Hq & _ & Hpr & Htm & _).
    intros p. rewrite Hpr, Htm, Hq.
    destruct (decide (p = next_object c)) as [->|Hne].
    + intros _. eexists. rewrite lookup_insert_eq. split; reflexivity.
    + rewrite lookup_insert_ne by congruence. intros Hp.
      destruct (Harmed p Hp) as (tm & Htm' & Hpt).
      exists tm. split; [|exact Hpt].
      rewrite lookup_insert_ne by congruence. exact Htm'.
  - destruct (on_message_cases text c)
      as [(k & cb & o & Hk & Ho & E)|[[k E]|[l E]]]; rewrite E.
    + destruct (wf_cb_timer c Hwf k cb Hk) as (tm0 & Htm0 & _ & Hp0).
      apply (pending_armed_complete k cb tm0); assumption.
    + exact Harmed.
    + exact Harmed.
  - destruct (timers c !! t) as [tm|] eqn:E.
    + rewrite (fire_timer_complete t tm c Hwf E).
      apply (pending_armed_complete _ _ tm); try assumption.
      * reflexivity.
      * discriminate.
    + unfold fire_timer. rewrite E. exact Harmed.
  - exact Harmed.
  - exact Harmed.
  - destruct (off_fields method h c) as (_ & Hp & Ht & _).
    intros p. rewrite Hp, Ht. apply Harmed.
Qed.

Lemma pending_armed_run (evs : list Event) (c : CDP) :
  wf c -> pending_armed c -> pending_armed (run evs c).
Proof.
  revert c. induction evs as [|ev evs IH]; intros c Hwf Harmed; [exact Harmed|].
  apply (IH (step c ev)).
  - apply wf_step, Hwf.
  - apply pending_armed_step; assumption.
Qed.

(** X19: in every client that a history produces, a promise that is
    still pending has the timer of its call armed, and that timer, when
    it fires, rejects the promise with the timeout error of the call: no
    call is left waiting for ever, also when its reply never comes, when
    the socket was closed, or when its reply made the listener throw. *)
Theorem pending_call_has_timer (c : CDP) (p : nat) :
  reachable c ->
  promises c !! p = Some Pending ->
  exists tm,
    timers c !! S p = Some tm
    /\ tm_promise tm = p
    /\ promises (fire_timer (S p) c) !! p
       = Some (Rejected (Error ("CDP timeout: " +:+ tm_method tm)))
    /\ timers (fire_timer (S p) c) !! S p = None
    /\ callbacks (fire_timer (S p) c) !! tm_msgId tm = None.
Proof.
  intros [evs ->] Hp.
  assert (Hwf : wf (run evs new_CDP)) by apply wf_run, wf_new.
  assert (Harmed : pending_armed (run evs new_CDP)).
  { apply pending_armed_run; [apply wf_new|].
    intros q Hq. simpl in Hq. rewrite lookup_empty in Hq. discriminate Hq. }
  destruct (Harmed p Hp) as (tm & Htm & Hpt).
  exists tm. split; [exact Htm|]. split; [exact Hpt|].
  destruct (fire_timer_spec (S p) tm _ Hwf Htm) as (Hq & Ht & Hc & _).
  rewrite Hpt in Hq. auto.
Qed.

(** X20: a [send] followed by its reply leaves the table of pending
    calls and the set of armed timers exactly as they were before the
    [send]; the promise of the call holds the result, and the frame sent
    is the one more thing the client keeps. *)
Theorem send_then_reply_restores
  (c : CDP) (method : string) (params sessionId : JsValue) (timeout : Z)
  (text : string) (msg : JsValue) :
  reachable c ->
  JSON_parse text = Some msg ->
  get msg "id" = JNum (id c + 1) ->
  truthy (get msg "error") = false ->
  let p := fst (send method params sessionId timeout c) in
  let c' := snd (on_message text (snd (send method params sessionId timeout c))) in
  callbacks c' = callbacks c
  /\ timers c' = timers c
  /\ promises c' !! p = Some (Fulfilled (get msg "result"))
  /\ eventHandlers c' = eventHandlers c
  /\ invoked c' = invoked c.
Proof.
  intros Hreach Hparse Hid Herr p c'.
  pose proof (reachable_wf _ _ c Hreach) as Hwf.
  pose proof (wf_send method params sessionId timeout c Hwf) as Hwf1.
  destruct (send_spec method params sessionId timeout c)
    as (Hp & _ & Hpr & Htm & Hcb & _ & _ & Hh).
  fold p in Hp, Hpr, Htm, Hcb.
  set (c1 := snd (send method params sessionId timeout c)) in *.
  assert (Hk : callbacks c1 !! (id c + 1)
               = Some {| cb_promise := p; cb_timer := S p |}).
  { rewrite Hcb. apply lookup_insert_eq. }
  assert (Hnn : nullish msg = false).
  { destruct msg; try reflexivity; discriminate Hid. }
  subst c'. rewrite (on_message_parsed _ _ text msg c1 Hparse Hnn).
  rewrite (dispatch_reply handler_body c1 msg _ _ Hwf1 Hid Hk).
  rewrite (reply_outcome_result msg Herr). simpl snd.
  destruct (complete_spec (id c + 1) {| cb_promise := p; cb_timer := S p |}
              (Fulfilled (get msg "result")) c1 Hwf1 Hk)
    as (Hq & _ & _ & _ & _ & _ & _ & _ & _ & Hh' & Hi').
  destruct (complete_fields (id c + 1) {| cb_promise := p; cb_timer := S p |}
              (Fulfilled (get msg "result")) c1) as (_ & _ & _ & Ht' & _).
  rewrite complete_callbacks, Ht'. simpl cb_timer. simpl in Hq.
  split; [|split; [|split; [exact Hq|split]]].
  - rewrite Hcb, delete_insert_eq. apply delete_id.
    destruct (callbacks c !! (id c + 1)) as [cb|] eqn:E; [|reflexivity].
    pose proof (wf_keys c Hwf _ _ E). lia.
  - rewrite Htm, delete_insert_eq. apply delete_id.
    destruct (timers c !! S p) as [tm|] eqn:E; [|reflexivity].
    destruct (wf_timer_handle c Hwf _ _ E) as [_ Hlt]. lia.
  - rewrite Hh'. exact Hh.
  - rewrite Hi'. reflexivity.
Qed.

End WithPlatform.

(** *** On the sample platform *)

Lemma handler_sets_in_order_witness :
  [1%nat; 2%nat] <> [] /\ NoDup [1%nat; 2%nat].
Proof.
  apply (handler_sets_in_order sample_parse sample_handler
           [EOn "Page.loadEventFired" 1; EOn "Page.loadEventFired" 2;
            EOn "Page.loadEventFired" 1; EOn "Network.requestWillBeSent" 3;
            EOff "Network.requestWillBeSent" 3]
           "Page.loadEventFired" [1%nat; 2%nat]).
  reflexivity.
Defined.


Lemma event_after_off_witness :
  on_message sample_parse sample_handler event_text
    (off "Page.loadEventFired" 1 two_handlers)
  = (Normal tt,
     delivered (JObj [("timestamp", JNum 7)]) JNull [2%nat]
       (off "Page.loadEventFired" 1 two_handlers)).
Proof.
  destruct (event_after_off sample_parse sample_handler two_handlers
              "Page.loadEventFired" 1 event_text event_msg) as [H _].
  - reflexivity.
  - split; [reflexivity|]. split; [reflexivity|]. intros H. discriminate H.
  - exact H.
Defined.

Lemma reply_is_not_an_event_witness :
  invoked (snd (on_message sample_parse sample_handler reply_text one_pending)) = [].
Proof.
  destruct (reply_is_not_an_event sample_parse sample_handler one_pending
              reply_text reply_msg 1 {| cb_promise := 0; cb_timer := 1 |}
              one_pending_reachable eq_refl eq_refl eq_refl) as [H _].
  exact H.
Defined.

Lemma timeout_is_local_witness : ws_closed (fire_timer 1 one_pending) = false.
Proof.
  destruct (timeout_is_local sample_parse sample_handler one_pending 1
              {| tm_msgId := 1; tm_method := "Browser.getVersion";
                 tm_promise := 0; tm_delay := 10000 |}
              one_pending_reachable eq_refl)
    as (_ & _ & _ & _ & _ & H & _).
  exact H.
Defined.

Lemma settled_promise_is_final_witness :
  promises (run sample_parse sample_handler
              [EMessage error_text; ETimer 1; EClose]
              (fire_timer 1 one_pending)) !! 0%nat
  = Some (Rejected (Error "CDP timeout: Browser.getVersion")).
Proof.
  apply (settled_promise_is_final sample_parse sample_handler).
  - exists [ESend "Browser.getVersion" (JObj []) JNull 10000; ETimer 1].
    reflexivity.
  - reflexivity.
  - discriminate.
Defined.

Lemma pending_call_has_timer_witness :
  promises (snd (on_message sample_parse sample_handler unprintable_text
                   one_pending)) !! 0%nat = Some Pending
  /\ exists tm,
       timers (snd (on_message sample_parse sample_handler unprintable_text
                      one_pending)) !! 1%nat = Some tm
       /\ tm_promise tm = 0%nat
       /\ promises (fire_timer 1
                      (snd (on_message sample_parse sample_handler
                              unprintable_text one_pending))) !! 0%nat
          = Some (Rejected (Error ("CDP timeout: " +:+ tm_method tm)))
       /\ timers (fire_timer 1
                    (snd (on_message sample_parse sample_handler
                            unprintable_text one_pending))) !! 1%nat = None
       /\ callbacks (fire_timer 1
                       (snd (on_message sample_parse sample_handler
                               unprintable_text one_pending))) !! tm_msgId tm
          = None.
Proof.
  split; [reflexivity|].
  apply (pending_call_has_timer sample_parse sample_handler
           (snd (on_message sample_parse sample_handler unprintable_text
                   one_pending)) 0).
  - exists [ESend "Browser.getVersion" (JObj []) JNull 10000;
            EMessage unprintable_text].
    reflexivity.
  - reflexivity.
Defined.

Lemma send_then_reply_restores_witness :
  callbacks (snd (on_message sample_parse sample_handler reply_text one_pending))
  = callbacks new_CDP.
Proof.
  destruct (send_then_reply_restores sample_parse sample_handler new_CDP
              "Browser.getVersion" (JObj []) JNull 10000 reply_text reply_msg)
    as [H _].
  - exists []. reflexivity.
  - reflexivity.
  - reflexivity.
  - reflexivity.
  - exact H.
Defined.

(** *** [getPages] *)

(** X21: [getPages] asks for [Target.getTargets] with no parameters and
    no session, and what it returns is the list of the targets whose type
    is the string [page], in the order of the reply: every target it
    returns is a page of the reply, and every page of the reply is
    returned.  A result with no list of targets, or with [null] in the
    list, makes it throw a [TypeError]. *)
Theorem getPages_keeps_pages (result : JsValue) :
  (forall c, exists frame,
     ws_sent (snd (getPages c)) = (ws_sent c ++ [frame])%list
     /\ f_method frame = "Target.getTargets"
     /\ f_params frame = JObj [] /\ f_sessionId frame = None)
  /\ (forall pages, getPages_result result = Normal pages ->
      exists targetInfos,
        get result "targetInfos" = JArr targetInfos
        /\ pages = JArr (List.filter is_page targetInfos)
        /\ forall t, In t (List.filter is_page targetInfos)
                     <-> In t targetInfos /\ get t "type" = JStr "page")
  /\ ((forall targetInfos, get result "targetInfos" <> JArr targetInfos) ->
      getPages_result result = Throw TypeError)
  /\ (forall targetInfos,
        get result "targetInfos" = JArr targetInfos -> In JNull targetInfos ->
        getPages_result result = Throw TypeError).
Proof.
  split; [|split; [|split]].
  - intros c. unfold getPages.
    destruct (send_spec "Target.getTargets" (JObj []) JNull 10000 c)
      as (_ & _ & _ & _ & _ & -> & _).
    eexists. split; [reflexivity|]. simpl. auto.
  - intros pages. unfold getPages_result.
    destruct (nullish result); [discriminate|].
    destruct (get result "targetInfos") as [| | | | |ts|]; try discriminate.
    destruct (existsb nullish ts); [discriminate|].
    intros [= <-]. exists ts. split; [reflexivity|]. split; [reflexivity|].
    intros t. rewrite filter_In. unfold is_page.
    split; intros [Hin Hp]; (split; [exact Hin|]).
    + destruct (get t "type") as [| | | |s| |]; try discriminate.
      apply String.eqb_eq in Hp. subst s. reflexivity.
    + rewrite Hp. reflexivity.
  - intros Hnone. unfold getPages_result.
    destruct (nullish result); [reflexivity|].
    destruct (get result "targetInfos") as [| | | | |ts|]; try reflexivity.
    exfalso. apply (Hnone ts). reflexivity.
  - intros ts Hts Hin. unfold getPages_result.
    destruct (nullish result); [reflexivity|]. rewrite Hts.
    assert (H : existsb nullish ts = true).
    { apply existsb_exists. exists JNull. split; [exact Hin|reflexivity]. }
    rewrite H. reflexivity.
Qed.

Lemma getPages_keeps_pages_witness :
  getPages_result
    (JObj [("targetInfos",
            JArr [JObj [("targetId", JStr "T1"); ("type", JStr "page")]; JNull])])
  = Throw TypeError.
Proof.
  apply (proj2 (proj2 (proj2 (getPages_keeps_pages _)))
           [JObj [("targetId", JStr "T1"); ("type", JStr "page")]; JNull]).
  - reflexivity.
  - right. left. reflexivity.
Defined.

Example getPages_sample :
  getPages_result sample_targets
  = Normal (JArr [JObj [("targetId", JStr "T1"); ("type", JStr "page")];
                  JObj [("targetId", JStr "T2"); ("type", JStr "page")]]).
Proof. reflexivity. Qed.

End ClientMore.
